(** * Loan management system: model of [project.py] and its properties

    The program is a console front end over three SQL tables ([users],
    [loans], [payments]).  The model keeps the tables as lists of rows in
    insertion order, threads the store through every [Database.execute]
    call, and records what the program prints.

    Modelling conventions.
    - Money ([DECIMAL(10,2)] columns, [float(input(...))]) is a number of
      cents in [Z]; the typed amounts are taken to be whole cents, so that
      the column holds them exactly.  Special floating values, the binary
      representation of floats and the Python types of fetched values
      (psycopg2 hands a [NUMERIC] column back as [Decimal], from which
      Python does not subtract a [float]) are outside the model: arithmetic
      and comparison between a fetched balance and a typed amount are
      arithmetic and comparison of numbers.
    - The interest rate [min(5.0 + term / 12, 15.0)] is an exact rational;
      the [DECIMAL(5,2)] column and the [:.2f] format keep hundredths.
    - [int(input(...))] and [float(input(...))] are represented by their
      result: [Some n], or [None] when Python raises [ValueError].
    - [created_at] timestamps are only displayed and are left out.
    - [Database.execute] catches [psycopg2.Error].  Which statements raise
      (a lost connection, a value that does not fit its column, a violated
      constraint) is not computed; it is an input, the fault schedule of
      the world: one boolean per executed statement, [true] for a statement
      that raises; past its end nothing raises.  The empty schedule is a
      store on which every statement succeeds. *)

From Stdlib Require Import ZArith QArith Qround Qminmax List String Ascii Bool Lia.
Import ListNotations.
Open Scope Z_scope.

(** ** Tables *)

(** The values the program writes into [loans.status]. *)
Inductive status := pending | approved | rejected | paid.

Definition status_eqb (a b : status) : bool :=
  match a, b with
  | pending, pending | approved, approved
  | rejected, rejected | paid, paid => true
  | _, _ => false
  end.

Record user_row := mkUser {
  user_id : Z;
  username : string;
  password_hash : string;
  is_admin : bool
}.

Record loan_row := mkLoan {
  loan_id : Z;
  loan_user : Z;
  amount : Z;              (* cents *)
  term : Z;                (* months *)
  loan_rate : Z;           (* interest_rate column, in hundredths of a percent *)
  loan_status : status;
  balance : Z              (* cents *)
}.

Record payment_row := mkPayment {
  payment_id : Z;
  payment_loan : Z;
  payment_amount : Z       (* cents *)
}.

(** The store: the three tables and the counters behind their [SERIAL]
    keys. *)
Record db := mkDb {
  users : list user_row;
  loans : list loan_row;
  payments : list payment_row;
  next_user_id : Z;
  next_loan_id : Z;
  next_payment_id : Z
}.

Definition empty_db : db := mkDb [] [] [] 1 1 1.

(** ** The SQL statements of the program *)

(** [SELECT 1 FROM users WHERE username = %s] and
    [SELECT id, password_hash, is_admin FROM users WHERE username = %s] *)
Definition select_user (name : string) (d : db) : list user_row :=
  filter (fun u => String.eqb (username u) name) (users d).

(** [INSERT INTO users (username, password_hash, is_admin) VALUES (%s, %s, %s)] *)
Definition insert_user_full (name hash : string) (adm : bool) (d : db) : db :=
  mkDb (users d ++ [mkUser (next_user_id d) name hash adm])
       (loans d) (payments d)
       (next_user_id d + 1) (next_loan_id d) (next_payment_id d).

(** [INSERT INTO users (username, password_hash) VALUES (%s, %s)];
    [is_admin] takes its column default, [FALSE]. *)
Definition insert_user (name hash : string) (d : db) : db :=
  insert_user_full name hash false d.

(** Rounding of a rational to the two decimals of a [DECIMAL(_,2)] column,
    as a number of hundredths (half away from zero). *)
Definition to_decimal2 (q : Q) : Z :=
  if Qle_bool 0 q then Qfloor (q * 100 + (1 # 2))%Q
  else - Qfloor (- q * 100 + (1 # 2))%Q.

(** [INSERT INTO loans (user_id, amount, term, interest_rate, balance)
    VALUES (%s, %s, %s, %s, %s)]; [status] takes its column default,
    ['pending']. *)
Definition insert_loan (uid amt trm : Z) (rate : Q) (bal : Z) (d : db) : db :=
  mkDb (users d)
       (loans d ++ [mkLoan (next_loan_id d) uid amt trm (to_decimal2 rate) pending bal])
       (payments d)
       (next_user_id d) (next_loan_id d + 1) (next_payment_id d).

(** [SELECT id, amount, term, interest_rate, status, balance, created_at
    FROM loans WHERE user_id = %s ORDER BY created_at DESC] *)
Definition select_loans_of (uid : Z) (d : db) : list loan_row :=
  rev (filter (fun l => loan_user l =? uid) (loans d)).

(** [SELECT id, amount, balance FROM loans
    WHERE user_id = %s AND status = 'approved'] *)
Definition select_approved_loans (uid : Z) (d : db) : list (Z * Z * Z) :=
  map (fun l => (loan_id l, amount l, balance l))
      (filter (fun l => (loan_user l =? uid) && status_eqb (loan_status l) approved)
              (loans d)).

Definition set_balance (b : Z) (l : loan_row) : loan_row :=
  mkLoan (loan_id l) (loan_user l) (amount l) (term l) (loan_rate l)
         (loan_status l) b.

Definition set_status (s : status) (l : loan_row) : loan_row :=
  mkLoan (loan_id l) (loan_user l) (amount l) (term l) (loan_rate l)
         s (balance l).

Definition update_loans (f : loan_row -> loan_row) (id : Z) (d : db) : db :=
  mkDb (users d)
       (map (fun l => if loan_id l =? id then f l else l) (loans d))
       (payments d)
       (next_user_id d) (next_loan_id d) (next_payment_id d).

(** [UPDATE loans SET balance = %s WHERE id = %s] *)
Definition update_balance (b id : Z) : db -> db := update_loans (set_balance b) id.

(** [UPDATE loans SET status = '...' WHERE id = %s] *)
Definition update_status (s : status) (id : Z) : db -> db :=
  update_loans (set_status s) id.

(** [INSERT INTO payments (loan_id, amount) VALUES (%s, %s)] *)
Definition insert_payment (id amt : Z) (d : db) : db :=
  mkDb (users d) (loans d)
       (payments d ++ [mkPayment (next_payment_id d) id amt])
       (next_user_id d) (next_loan_id d) (next_payment_id d + 1).

(** [SELECT l.id, u.username, l.amount, l.term, l.created_at
    FROM loans l JOIN users u ON l.user_id = u.id
    WHERE l.status = 'pending'] *)
Definition select_pending_loans (d : db) : list (Z * string * Z * Z) :=
  flat_map (fun l =>
              map (fun u => (loan_id l, username u, amount l, term l))
                  (filter (fun u => loan_user l =? user_id u) (users d)))
           (filter (fun l => status_eqb (loan_status l) pending) (loans d)).

(** [SELECT id, username, is_admin FROM users] *)
Definition select_users (d : db) : list (Z * string * bool) :=
  map (fun u => (user_id u, username u, is_admin u)) (users d).

(** ** The world and the console *)

(** What the program prints through [print_error], [print_warning] and
    [print_success], and the rate it shows; the comment gives the text of
    the source.  Menus, prompts and listings are left out. *)
Inductive message :=
| DatabaseError            (* error: "Database error: ..." *)
| UsernameExists           (* error: "Username already exists!" *)
| PasswordsDontMatch       (* error: "Passwords don't match!" *)
| RegistrationSuccessful   (* success: "Registration successful!" *)
| InvalidCredentials       (* error: "Invalid credentials!" *)
| Welcome                  (* success: "Welcome, ...!" *)
| MustBePositive           (* error: "Amount and term must be positive!" *)
| LoanSubmitted            (* success: "Loan application submitted successfully!" *)
| InvalidNumbers           (* error: "Invalid input! Please enter numbers." *)
| NoLoans                  (* warning: "You have no loans." *)
| NoApprovedLoans          (* warning: "You have no approved loans." *)
| InvalidLoanId            (* error: "Invalid loan ID!" *)
| AmountMustBePositive     (* error: "Amount must be positive!" *)
| ExceedsBalance           (* error: "Payment exceeds loan balance!" *)
| PaymentSuccessful        (* success: "Payment successful!" *)
| NoPendingLoans           (* warning: "No pending loans found." *)
| LoanApproved             (* success: "Loan approved!" *)
| LoanRejected             (* warning: "Loan rejected." *)
| InvalidAction            (* error: "Invalid action!" *)
| InvalidInput             (* error: "Invalid input!" *)
| InvalidChoice            (* error: "Invalid choice!" *)
| CalculatedRate (hundredths : Z).
                           (* "Calculated interest rate: {interest_rate:.2f}%" *)

Record world := mkWorld {
  store : db;
  faults : list bool;      (* one entry per statement still to come *)
  out : list message;      (* printed so far *)
  crashed : bool           (* an exception escaped to the top level *)
}.

(** ** A state monad over the world *)

Definition M (A : Type) : Type := world -> A * world.

Definition ret {A} (a : A) : M A := fun w => (a, w).

Definition bind {A B} (m : M A) (k : A -> M B) : M B :=
  fun w => let (a, w') := m w in k a w'.

Notation "x <- m ;; k" := (bind m (fun x => k))
  (at level 61, m at next level, right associativity).
Notation "m ;; k" := (bind m (fun _ => k))
  (at level 61, right associativity).

Definition run (m : M unit) (w : world) : world := snd (m w).

Definition print (m : message) : M unit :=
  fun w => (tt, mkWorld (store w) (faults w) (out w ++ [m]) (crashed w)).

Definition crash : M unit :=
  fun w => (tt, mkWorld (store w) (faults w) (out w) true).

(** [Database.execute(query, params, fetch=True)]: the rows, or [None]
    after printing the error when the statement raises. *)
Definition execute_fetch {A} (query : db -> list A) : M (option (list A)) :=
  fun w =>
    if hd false (faults w) then
      (None, mkWorld (store w) (tl (faults w)) (out w ++ [DatabaseError]) (crashed w))
    else
      (Some (query (store w)), mkWorld (store w) (tl (faults w)) (out w) (crashed w)).

(** [Database.execute(query, params)]: runs and commits the statement, or
    prints the error when it raises.  Returns [None] either way. *)
Definition execute (stmt : db -> db) : M unit :=
  fun w =>
    if hd false (faults w) then
      (tt, mkWorld (store w) (tl (faults w)) (out w ++ [DatabaseError]) (crashed w))
    else
      (tt, mkWorld (stmt (store w)) (tl (faults w)) (out w) (crashed w)).

(** Python's [if not rows] on the result of a fetch: [None] and the empty
    list both count as false. *)
Definition no_rows {A} (r : option (list A)) : bool :=
  match r with
  | Some (_ :: _) => false
  | _ => true
  end.

(** The dictionary [login] returns. *)
Record session := mkSession {
  sid : Z;
  sname : string;
  sadmin : bool
}.

(** ** Console operations *)

(** [str.lower()] on the letters that matter to the program. *)
Definition lower_ascii (c : ascii) : ascii :=
  let n := nat_of_ascii c in
  if ((65 <=? n) && (n <=? 90))%nat then ascii_of_nat (n + 32) else c.

Fixpoint lower (s : string) : string :=
  match s with
  | EmptyString => EmptyString
  | String c rest => String (lower_ascii c) (lower rest)
  end.

(** [interest_rate = min(5.0 + (term / 12), 15.0)] *)
Definition interest_rate (trm : Z) : Q :=
  Qmin (5 + inject_Z trm / 12) 15.

(** The two decimals of [f"{interest_rate:.2f}"], in hundredths.  The rate
    is never half way between two hundredths ([rate_not_half_way] below),
    so the rounding rule at ties plays no part. *)
Definition format_2f (q : Q) : Z := to_decimal2 q.

Definition apply_for_loan (user : session) (amount_in term_in : option Z) : M unit :=
  match amount_in with
  | None => print InvalidNumbers
  | Some amt =>
      match term_in with
      | None => print InvalidNumbers
      | Some trm =>
          if (amt <=? 0) || (trm <=? 0) then print MustBePositive
          else
            let rate := interest_rate trm in
            print (CalculatedRate (format_2f rate)) ;;
            execute (insert_loan (sid user) amt trm rate amt) ;;
            print LoanSubmitted
      end
  end.

Definition view_loans (user : session) : M unit :=
  rows <- execute_fetch (select_loans_of (sid user)) ;;
  if no_rows rows then print NoLoans else ret tt.

Definition make_payment (user : session) (loan_id_in amount_in : option Z) : M unit :=
  approved_loans <- execute_fetch (select_approved_loans (sid user)) ;;
  match approved_loans with
  | Some ((_ :: _) as rows) =>
      match loan_id_in with
      | None => print InvalidNumbers
      | Some lid =>
          match amount_in with
          | None => print InvalidNumbers
          | Some amt =>
              match find (fun r => fst (fst r) =? lid) rows with
              | None => print InvalidLoanId
              | Some selected_loan =>
                  if amt <=? 0 then print AmountMustBePositive
                  else if amt >? snd selected_loan then print ExceedsBalance
                  else
                    let new_balance := snd selected_loan - amt in
                    execute (update_balance new_balance lid) ;;
                    execute (insert_payment lid amt) ;;
                    (if new_balance =? 0
                     then execute (update_status paid lid)
                     else ret tt) ;;
                    print PaymentSuccessful
              end
          end
      end
  | _ => print NoApprovedLoans
  end.

Definition review_pending_loans (loan_id_in : option Z) (action_in : string) : M unit :=
  rows <- execute_fetch select_pending_loans ;;
  if no_rows rows then print NoPendingLoans
  else
    match loan_id_in with
    | None => print InvalidInput
    | Some lid =>
        let action := lower action_in in
        if String.eqb action "a" then
          execute (update_status approved lid) ;;
          print LoanApproved
        else if String.eqb action "r" then
          execute (update_status rejected lid) ;;
          print LoanRejected
        else print InvalidAction
    end.

(** [for user in users] raises [TypeError] when the fetch returned [None];
    nothing catches it. *)
Definition manage_users : M unit :=
  rows <- execute_fetch select_users ;;
  match rows with
  | None => crash
  | Some _ => ret tt
  end.

(** One round of the user menu: the option chosen, with the lines typed
    into the operation it starts.  Option "4" ends the menu and is the end
    of the list of choices. *)
Inductive user_choice :=
| ChooseApply (amount_in term_in : option Z)              (* "1" *)
| ChooseView                                              (* "2" *)
| ChoosePay (loan_id_in amount_in : option Z)             (* "3" *)
| ChooseReview (loan_id_in : option Z) (action_in : string) (* "5" *)
| ChooseManage                                            (* "6" *)
| ChooseOther.

Definition user_step (user : session) (c : user_choice) : M unit :=
  match c with
  | ChooseApply a t => apply_for_loan user a t
  | ChooseView => view_loans user
  | ChoosePay l a => make_payment user l a
  | ChooseReview l a =>
      if sadmin user then review_pending_loans l a else print InvalidChoice
  | ChooseManage =>
      if sadmin user then manage_users else print InvalidChoice
  | ChooseOther => print InvalidChoice
  end.

Fixpoint show_user_menu (user : session) (choices : list user_choice) : M unit :=
  match choices with
  | [] => ret tt
  | c :: rest =>
      fun w =>
        let w' := run (user_step user c) w in
        if crashed w' then (tt, w') else show_user_menu user rest w'
  end.

Section Bcrypt.

(** [bcrypt.hashpw(password, salt)] and [bcrypt.checkpw(password, hash)];
    the salt is what [bcrypt.gensalt()] returned. *)
Variable hashpw : string -> string -> string.
Variable checkpw : string -> string -> bool.

(** [Database.create_tables]: the tables exist from here on, and the
    admin account is inserted unless a user of that name exists. *)
Definition create_tables (salt : string) (d : db) : db :=
  match select_user "admin" d with
  | [] => insert_user_full "admin" (hashpw "admin123" salt) true d
  | _ :: _ => d
  end.

Definition register (name password confirm salt : string) : M unit :=
  rows <- execute_fetch (select_user name) ;;
  if negb (no_rows rows) then print UsernameExists
  else if negb (String.eqb password confirm) then print PasswordsDontMatch
  else
    execute (insert_user name (hashpw password salt)) ;;
    print RegistrationSuccessful.

Definition login (name password : string) : M (option session) :=
  user <- execute_fetch (select_user name) ;;
  match user with
  | Some (u :: _) =>
      if negb (checkpw password (password_hash u)) then
        print InvalidCredentials ;; ret None
      else
        print Welcome ;;
        ret (Some (mkSession (user_id u) name (is_admin u)))
  | _ => print InvalidCredentials ;; ret None
  end.

(** One round of the main menu.  Option "3" ends the program and is the
    end of the list of choices. *)
Inductive main_choice :=
| MenuRegister (name password confirm salt : string)           (* "1" *)
| MenuLogin (name password : string) (menu : list user_choice) (* "2" *)
| MenuOther.

Definition main_step (c : main_choice) : M unit :=
  match c with
  | MenuRegister n p c s => register n p c s
  | MenuLogin n p menu =>
      user <- login n p ;;
      match user with
      | Some u => show_user_menu u menu
      | None => ret tt
      end
  | MenuOther => print InvalidChoice
  end.

Fixpoint main_loop (choices : list main_choice) : M unit :=
  match choices with
  | [] => ret tt
  | c :: rest =>
      fun w =>
        let w' := run (main_step c) w in
        if crashed w' then (tt, w') else main_loop rest w'
  end.

(** The world a fresh [Database()] starts from, on an empty store. *)
Definition boot (salt : string) (schedule : list bool) : world :=
  mkWorld (create_tables salt empty_db) schedule [] false.

(** [main()], for the choices typed at the main menu. *)
Definition main (salt : string) (schedule : list bool)
           (choices : list main_choice) : world :=
  run (main_loop choices) (boot salt schedule).

End Bcrypt.

(** ** The error kinds of the specification *)

(** The program has no exception classes: a failing operation prints and
    returns.  The specification names the failures by kind; this is the
    reading of each printed message as one of its kinds. *)
Inductive error_kind :=
| ValidationError | NotFoundError | ConflictError | AuthError | StoreError.

Definition error_of (m : message) : option error_kind :=
  match m with
  | DatabaseError => Some StoreError
  | UsernameExists => Some ConflictError
  | InvalidCredentials => Some AuthError
  | PasswordsDontMatch | MustBePositive | InvalidNumbers
  | AmountMustBePositive | ExceedsBalance | InvalidAction | InvalidInput
  | InvalidChoice => Some ValidationError
  | NoApprovedLoans | InvalidLoanId | NoPendingLoans => Some NotFoundError
  | _ => None
  end.

(** ** Notions used to state the properties *)

(** A store on which every statement succeeds. *)
Definition reliable (w : world) : Prop := faults w = [].

(** Whether the [i]-th statement from now raises. *)
Definition fault_at (i : nat) (w : world) : bool := nth i (faults w) false.

(** [l] is the loan the payment menu offers to [user] under number [lid]:
    a row of [loans] owned by the user, with status ['approved']. *)
Definition approved_loan_of (user : session) (lid : Z) (d : db) (l : loan_row) : Prop :=
  In l (loans d) /\ loan_id l = lid /\ loan_user l = sid user /\
  loan_status l = approved.

(** The [WHERE] clause and the columns of the payment menu's query. *)
Definition offered (uid : Z) (l : loan_row) : bool :=
  (loan_user l =? uid) && status_eqb (loan_status l) approved.

Definition row_of (l : loan_row) : Z * Z * Z := (loan_id l, amount l, balance l).

(** [loans.id] is a primary key: no two rows share it. *)
Definition loan_ids_unique (d : db) : Prop := NoDup (map loan_id (loans d)).

(** The row of a loan after a payment of [amt] went through. *)
Definition after_payment (amt : Z) (l : loan_row) : loan_row :=
  mkLoan (loan_id l) (loan_user l) (amount l) (term l) (loan_rate l)
         (if balance l - amt =? 0 then paid else loan_status l)
         (balance l - amt).

(** The three statements of a payment, each one run or skipped. *)
Definition payment_statements (skip1 skip2 skip3 : bool) (lid amt new_balance : Z)
           (d : db) : db :=
  let d1 := if skip1 then d else update_balance new_balance lid d in
  let d2 := if skip2 then d1 else insert_payment lid amt d1 in
  if new_balance =? 0 then (if skip3 then d2 else update_status paid lid d2) else d2.

(** Ledger entries of a loan and their sum. *)
Definition payments_of (lid : Z) (d : db) : list payment_row :=
  filter (fun p => payment_loan p =? lid) (payments d).

Definition paid_total (lid : Z) (d : db) : Z :=
  fold_right Z.add 0 (map payment_amount (payments_of lid d)).

Definition balance_of (lid : Z) (d : db) : option Z :=
  option_map balance (find (fun l => loan_id l =? lid) (loans d)).

Definition status_of (lid : Z) (d : db) : option status :=
  option_map loan_status (find (fun l => loan_id l =? lid) (loans d)).

(** The ledger of a loan accounts for what has been paid off. *)
Definition reconciled (d : db) : Prop :=
  Forall (fun l => paid_total (loan_id l) d = amount l - balance l) (loans d).

(** The loan invariant of the data model: the balance never exceeds the
    amount, and it is zero exactly when the status is ['paid']. *)
Definition loan_invariant (l : loan_row) : bool :=
  (balance l <=? amount l)
  && Bool.eqb (balance l =? 0) (status_eqb (loan_status l) paid).


(** The keys the store hands out: loan ids are unique and below the
    counter, and every ledger entry points below the counter. *)
Definition keys_fresh (d : db) : Prop :=
  loan_ids_unique d
  /\ Forall (fun l => loan_id l < next_loan_id d) (loans d)
  /\ Forall (fun p => payment_loan p < next_loan_id d) (payments d).

(** The statements through which the console operations write to the
    store, one at a time. *)
Inductive statement (d : db) : db -> Prop :=
| st_insert_user name hash : statement d (insert_user name hash d)
| st_insert_loan uid amt trm rate bal :
    statement d (insert_loan uid amt trm rate bal d)
| st_update_balance b lid : statement d (update_balance b lid d)
| st_insert_payment lid amt : statement d (insert_payment lid amt d)
| st_update_status s lid : statement d (update_status s lid d).

(** An operation keeps a property of the store. *)
Definition keeps (P : db -> Prop) {A} (m : M A) : Prop :=
  forall w, P (store w) -> P (store (snd (m w))).

(** Loan ids are unique and below the counter of the key. *)
Definition loan_keys (d : db) : Prop :=
  loan_ids_unique d /\ Forall (fun l => loan_id l < next_loan_id d) (loans d).

(** What every store the program can reach on a reliable store satisfies. *)
Definition store_invariant (d : db) : Prop := keys_fresh d /\ reconciled d.

(** The changes the operations make to the store on a reliable store. *)
Inductive transition (d : db) : db -> Prop :=
| t_register name hash :
    select_user name d = [] ->
    transition d (insert_user name hash d)
| t_apply uid amt trm :
    0 < amt -> 0 < trm ->
    transition d (insert_loan uid amt trm (interest_rate trm) amt d)
| t_pay uid lid a b amt :
    In (lid, a, b) (select_approved_loans uid d) ->
    0 < amt <= b ->
    transition d (payment_statements false false false lid amt (b - amt) d)
| t_decide s lid :
    s = approved \/ s = rejected ->
    select_pending_loans d <> [] ->
    transition d (update_status s lid d).

(** One operation on a reliable store: the store stays reliable, nothing
    crashes, and the store is left alone or makes one transition. *)
Definition advance (w w' : world) : Prop :=
  reliable w' /\ crashed w' = false
  /\ (store w' = store w \/ transition (store w) (store w')).

(** The user [uid] owns a loan numbered [lid]. *)
Definition owns (uid lid : Z) (d : db) : Prop :=
  exists l, In l (loans d) /\ loan_id l = lid /\ loan_user l = uid.

(** The statements through which the menu of a user who is not an admin
    writes to the store: a new loan of their own, and the three statements
    of a payment, on a loan of their own. *)
Inductive own_write (uid : Z) (d : db) : db -> Prop :=
| ow_apply amt trm rate bal :
    own_write uid d (insert_loan uid amt trm rate bal d)
| ow_balance lid b :
    owns uid lid d -> own_write uid d (update_balance b lid d)
| ow_payment lid amt :
    owns uid lid d -> own_write uid d (insert_payment lid amt d)
| ow_paid lid :
    owns uid lid d -> own_write uid d (update_status paid lid d).

(** ** Stand-ins for bcrypt, to run the program on examples *)

Definition demo_hashpw (password salt : string) : string :=
  (salt ++ "$" ++ password)%string.

Definition demo_checkpw (password hash : string) : bool :=
  String.eqb password
    (substring (String.length hash - String.length password)
               (String.length password) hash).

Definition demo_main : list bool -> list main_choice -> world :=
  main demo_hashpw demo_checkpw "salt0".

(** Alice registers and applies for 1000.00 over 12 months; the admin
    approves loan 1. *)
Definition approved_loan_session : list main_choice :=
  [ MenuRegister "alice" "secret" "secret" "salt1";
    MenuLogin "alice" "secret" [ChooseApply (Some 100000) (Some 12)];
    MenuLogin "admin" "admin123" [ChooseReview (Some 1) "a"] ].



(** ... then Alice pays loan 1 off in full and applies for a second loan. *)
Definition paid_loan_session : list main_choice :=
  approved_loan_session ++
  [ MenuLogin "alice" "secret"
      [ChoosePay (Some 1) (Some 100000); ChooseApply (Some 50000) (Some 6)] ].

(** ... then the admin, reviewing the pending loan 2, types the number of
    loan 1 and approves. *)
Definition redecided_session : list main_choice :=
  paid_loan_session ++
  [ MenuLogin "admin" "admin123" [ChooseReview (Some 1) "a"] ].


(** * Properties *)

(** ** Interest rate *)









(** ** Loan application *)

Ltac run_op :=
  unfold run, bind, execute, execute_fetch, print, ret, crash; simpl.



(** ** Registration *)

Lemma fault_at_0 (w : world) : fault_at 0 w = hd false (faults w).
Proof. unfold fault_at. destruct (faults w); reflexivity. Qed.

Lemma fault_at_S (i : nat) (w : world) :
  fault_at (S i) w = nth i (tl (faults w)) false.
Proof. unfold fault_at. destruct (faults w); [destruct i |]; reflexivity. Qed.

Lemma select_user_nil (name : string) (d : db) :
  select_user name d = [] <-> ~ In name (map username (users d)).
Proof.
  unfold select_user. induction (users d) as [| u us IH]; simpl.
  - split; [intros _ [] | reflexivity].
  - destruct (String.eqb_spec (username u) name) as [E | E].
    + split; [discriminate | intros H; exfalso; apply H; left; assumption].
    + rewrite IH. split.
      * intros H [H' | H']; [apply E, H' | apply H, H'].
      * intros H H'. apply H. right. assumption.
Qed.

Section RegistrationProperties.

Variable hashpw : string -> string -> string.


(** C10. When the uniqueness check lets the name through (the name is
    free, or the check itself raised) but the two password entries differ,
    the registration prints its error and stops before any account is made:
    the store is left as it was, whatever the store does. *)
Theorem register_password_mismatch (name password confirm salt : string)
        (w : world) :
  ~ In name (map username (users (store w))) \/ fault_at 0 w = true ->
  password <> confirm ->
  let w' := run (register hashpw name password confirm salt) w in
  store w' = store w
  /\ last (out w') DatabaseError = PasswordsDontMatch
  /\ error_of PasswordsDontMatch = Some ValidationError
  /\ ~ In RegistrationSuccessful (skipn (List.length (out w)) (out w'))
  /\ (reliable w -> out w' = out w ++ [PasswordsDontMatch]).
Proof.
  intros Hpass Hne w'. subst w'. unfold register. run_op.
  rewrite fault_at_0 in Hpass.
  apply String.eqb_neq in Hne.
  destruct (hd false (faults w)) eqn:Hf; simpl.
  - rewrite Hne. simpl. split; [reflexivity |].
    split; [apply last_last |]. split; [reflexivity |].
    split.
    + rewrite <- app_assoc, skipn_app, skipn_all, Nat.sub_diag. simpl.
      intros [H | [H | []]]; discriminate.
    + intros Hrel. rewrite Hrel in Hf. discriminate.
  - destruct Hpass as [Hfresh | Hfault]; [| discriminate].
    apply select_user_nil in Hfresh.
    rewrite Hfresh. simpl. rewrite Hne. simpl. split; [reflexivity |].
    split; [apply last_last |]. split; [reflexivity |].
    split.
    + rewrite skipn_app, skipn_all, Nat.sub_diag. simpl.
      intros [H | []]; discriminate.
    + reflexivity.
Qed.

End RegistrationProperties.



Lemma register_password_mismatch_witness :
  store (run (register demo_hashpw "alice" "secret" "secrte" "salt1")
             (demo_main [true] []))
  = store (demo_main [true] []).
Proof.
  apply (register_password_mismatch demo_hashpw "alice" "secret" "secrte" "salt1"
                                    (demo_main [true] [])).
  - left. simpl. intros [H | []]. discriminate.
  - discriminate.
Defined.

(** ** Payments *)

Lemma select_approved_loans_eq (uid : Z) (d : db) :
  select_approved_loans uid d = map row_of (filter (offered uid) (loans d)).
Proof. reflexivity. Qed.

Lemma status_eqb_eq (a b : status) : status_eqb a b = true <-> a = b.
Proof. destruct a, b; simpl; split; congruence. Qed.

Lemma offered_iff (uid : Z) (l : loan_row) :
  offered uid l = true <-> loan_user l = uid /\ loan_status l = approved.
Proof.
  unfold offered. rewrite andb_true_iff, Z.eqb_eq, status_eqb_eq. reflexivity.
Qed.

Lemma find_row_some (uid lid : Z) (ls : list loan_row) (r : Z * Z * Z) :
  find (fun r => fst (fst r) =? lid) (map row_of (filter (offered uid) ls)) = Some r ->
  exists l, In l ls /\ loan_id l = lid /\ offered uid l = true /\ r = row_of l.
Proof.
  induction ls as [| x xs IH]; simpl; [discriminate |].
  destruct (offered uid x) eqn:Ho; simpl.
  - destruct (loan_id x =? lid) eqn:Hid.
    + intros [= <-]. exists x. apply Z.eqb_eq in Hid. auto.
    + intros H. destruct (IH H) as [l [Hin Hl]]. exists l. auto.
  - intros H. destruct (IH H) as [l [Hin Hl]]. exists l. auto.
Qed.


Lemma same_id_same_row (ls : list loan_row) (l x : loan_row) :
  NoDup (map loan_id ls) -> In l ls -> In x ls -> loan_id x = loan_id l -> x = l.
Proof.
  induction ls as [| y ys IH]; simpl; [intros _ [] |].
  intros Hnd Hl Hx Hid. inversion Hnd as [| ? ? Hnotin Hnd']; subst.
  destruct Hl as [-> | Hl], Hx as [-> | Hx]; auto.
  - exfalso. apply Hnotin. rewrite <- Hid. apply in_map. assumption.
  - exfalso. apply Hnotin. rewrite Hid. apply in_map. assumption.
Qed.



Lemma run_payment_statements (d : db) (fs : list bool) (o : list message) (c : bool)
      (lid amt nb : Z) :
  store (run (execute (update_balance nb lid) ;;
              execute (insert_payment lid amt) ;;
              (if nb =? 0 then execute (update_status paid lid) else ret tt) ;;
              print PaymentSuccessful)
             (mkWorld d fs o c))
  = payment_statements (nth 0 fs false) (nth 1 fs false) (nth 2 fs false) lid amt nb d.
Proof.
  unfold payment_statements.
  destruct fs as [| f1 [| f2 [| f3 rest]]];
    repeat match goal with b : bool |- _ => destruct b end;
    destruct (nb =? 0); reflexivity.
Qed.

Lemma payment_statements_unique (d : db) (lid amt : Z) (l : loan_row) :
  loan_ids_unique d -> In l (loans d) -> loan_id l = lid ->
  payment_statements false false false lid amt (balance l - amt) d =
  mkDb (users d)
       (map (fun x => if loan_id x =? lid then after_payment amt l else x) (loans d))
       (payments d ++ [mkPayment (next_payment_id d) lid amt])
       (next_user_id d) (next_loan_id d) (next_payment_id d + 1).
Proof.
  intros Hu Hin <-. unfold payment_statements, after_payment.
  destruct (balance l - amt =? 0) eqn:E; unfold update_status, update_balance,
    update_loans, insert_payment; simpl; f_equal.
  - rewrite map_map. apply map_ext_in. intros x Hx.
    destruct (loan_id x =? loan_id l) eqn:Ex.
    + apply Z.eqb_eq in Ex.
      assert (x = l) by (apply (same_id_same_row (loans d)); auto).
      subst x. simpl. rewrite Z.eqb_refl. reflexivity.
    + rewrite Ex. reflexivity.
  - apply map_ext_in. intros x Hx.
    destruct (loan_id x =? loan_id l) eqn:Ex; [| reflexivity].
    apply Z.eqb_eq in Ex.
    assert (x = l) by (apply (same_id_same_row (loans d)); auto).
    subst x. reflexivity.
Qed.

Lemma skipn_printed (o extra : list message) :
  skipn (List.length o) (o ++ extra) = extra.
Proof.
  rewrite skipn_app, skipn_all, Nat.sub_diag. reflexivity.
Qed.



(** On a reliable store, a payment on a number that is not one of the
    caller's approved loans (the loan is pending, rejected, paid, someone
    else's, or does not exist) is refused as not found and changes
    nothing. *)
Lemma make_payment_not_offered (user : session) (lid amt : Z) (w : world) :
  reliable w ->
  (forall l, ~ approved_loan_of user lid (store w) l) ->
  store (run (make_payment user (Some lid) (Some amt)) w) = store w
  /\ exists m,
      out (run (make_payment user (Some lid) (Some amt)) w) = out w ++ [m]
      /\ (m = NoApprovedLoans \/ m = InvalidLoanId).
Proof.
  intros Hrel Hnone. unfold make_payment. run_op. rewrite Hrel. simpl.
  destruct (select_approved_loans (sid user) (store w)) as [| r rs] eqn:Hrows.
  - simpl. split; [reflexivity |]. exists NoApprovedLoans. auto.
  - destruct (find _ (r :: rs)) as [sel |] eqn:Hfind.
    + exfalso. rewrite <- Hrows, select_approved_loans_eq in Hfind.
      apply find_row_some in Hfind. destruct Hfind as [l (Hin & Hid & Ho & _)].
      apply offered_iff in Ho. apply (Hnone l). repeat split; tauto.
    + simpl. split; [reflexivity |]. exists InvalidLoanId. auto.
Qed.






(** A ledger entry is only ever written for a loan the payment menu
    offered: one of the caller's loans whose status is ['approved'] at that
    moment.  This holds whatever the store does. *)
Lemma payment_needs_approved (user : session) (loan_id_in amount_in : option Z)
      (w : world) :
  payments (store (run (make_payment user loan_id_in amount_in) w))
  <> payments (store w) ->
  exists lid l, loan_id_in = Some lid /\ approved_loan_of user lid (store w) l.
Proof.
  remember (run (make_payment user loan_id_in amount_in) w) as w' eqn:Hw.
  unfold make_payment in Hw.
  unfold run in Hw. unfold bind at 1 in Hw. unfold execute_fetch in Hw.
  destruct (hd false (faults w)); [subst w'; simpl; congruence |].
  destruct (select_approved_loans (sid user) (store w)) as [| r rs] eqn:Hrows;
    [subst w'; simpl; congruence |].
  destruct loan_id_in as [lid |]; [| subst w'; simpl; congruence].
  destruct amount_in as [amt |]; [| subst w'; simpl; congruence].
  destruct (find _ (r :: rs)) as [sel |] eqn:Hfind; [| subst w'; simpl; congruence].
  intros _. rewrite <- Hrows, select_approved_loans_eq in Hfind.
  apply find_row_some in Hfind. destruct Hfind as [l (Hin & Hid & Ho & _)].
  apply offered_iff in Ho. exists lid, l. split; [reflexivity |].
  repeat split; tauto.
Qed.

(** Once the balance of a loan is zero no payment on it is recorded any
    more, whatever its status and whatever the store does. *)
Lemma no_payment_on_zero_balance (user : session) (lid : Z)
      (amount_in : option Z) (w : world) (l : loan_row) :
  loan_ids_unique (store w) ->
  In l (loans (store w)) -> loan_id l = lid -> balance l = 0 ->
  payments (store (run (make_payment user (Some lid) amount_in) w))
  = payments (store w).
Proof.
  intros Hu Hin Hid Hb.
  remember (run (make_payment user (Some lid) amount_in) w) as w' eqn:Hw.
  unfold make_payment in Hw.
  unfold run in Hw. unfold bind at 1 in Hw. unfold execute_fetch in Hw.
  destruct (hd false (faults w)); [subst w'; reflexivity |].
  destruct (select_approved_loans (sid user) (store w)) as [| r rs] eqn:Hrows;
    [subst w'; reflexivity |].
  destruct amount_in as [amt |]; [| subst w'; reflexivity].
  destruct (find _ (r :: rs)) as [sel |] eqn:Hfind; [| subst w'; reflexivity].
  destruct (amt <=? 0) eqn:E1; [subst w'; reflexivity |].
  rewrite <- Hrows, select_approved_loans_eq in Hfind.
  apply find_row_some in Hfind. destruct Hfind as [x (Hx & Hxid & _ & ->)].
  assert (x = l) by (apply (same_id_same_row (loans (store w))); auto; congruence).
  subst x. unfold row_of in Hw. cbn [snd] in Hw. rewrite Hb in Hw.
  apply Z.leb_gt in E1.
  assert (E2 : (amt >? 0) = true) by (rewrite Z.gtb_ltb; apply Z.ltb_lt; lia).
  rewrite E2 in Hw. subst w'. reflexivity.
Qed.

(** ** Approve and reject *)

(** C8, as the program has it.  When the review reaches its prompt, that
    is when some loan is pending, the decision typed for a loan number sets
    the status of the loan with that number to ['approved'] or ['rejected'],
    whatever its status was before, the loan need not be one of the pending
    ones; no balance changes, and nothing else in the store. *)
Theorem review_decision (lid : Z) (action_in : string) (s : status) (w : world) :
  reliable w ->
  select_pending_loans (store w) <> [] ->
  (lower action_in = "a"%string /\ s = approved)
  \/ (lower action_in = "r"%string /\ s = rejected) ->
  let w' := run (review_pending_loans (Some lid) action_in) w in
  let d := store w in
  store w' =
    mkDb (users d)
         (map (fun l => if loan_id l =? lid then set_status s l else l) (loans d))
         (payments d)
         (next_user_id d) (next_loan_id d) (next_payment_id d)
  /\ (forall l, In l (loans d) -> loan_id l = lid ->
      In (set_status s l) (loans (store w')))
  /\ map balance (loans (store w')) = map balance (loans d).
Proof.
  intros Hrel Hpend Hact w' d.
  assert (Hs : store w' = update_status s lid d).
  { subst w' d. unfold review_pending_loans. run_op. rewrite Hrel. simpl.
    destruct (select_pending_loans (store w)) as [| r rs]; [contradiction |].
    simpl. destruct Hact as [[-> ->] | [-> ->]]; reflexivity. }
  rewrite Hs. split; [reflexivity |]. split.
  - intros l Hin Hid. simpl. apply in_map_iff. exists l.
    split; [| assumption]. apply Z.eqb_eq in Hid. rewrite Hid. reflexivity.
  - simpl. rewrite map_map. apply map_ext. intros l.
    destruct (loan_id l =? lid); reflexivity.
Qed.

(** With loan 2 pending, approving number 1 turns the paid loan 1 into an
    approved one. *)
Lemma review_decision_witness :
  map (fun l => (loan_id l, loan_status l, balance l))
      (loans (store (run (review_pending_loans (Some 1) "A")
                         (demo_main [] paid_loan_session))))
  = [(1, approved, 0); (2, pending, 50000)].
Proof.
  destruct (review_decision 1 "A" approved (demo_main [] paid_loan_session))
    as [Hs _].
  - reflexivity.
  - discriminate.
  - left. split; reflexivity.
  - rewrite Hs. reflexivity.
Defined.

(** C8 as stated fails: with no loan pending the review returns before it
    asks for a decision, and the status of loan 1 is not set. *)
Lemma review_without_pending_loan :
  status_of 1 (store (demo_main [] approved_loan_session)) = Some approved
  /\ status_of 1 (store (run (review_pending_loans (Some 1) "r")
                             (demo_main [] approved_loan_session)))
     = Some approved
  /\ out (run (review_pending_loans (Some 1) "r")
              (demo_main [] approved_loan_session))
     = out (demo_main [] approved_loan_session) ++ [NoPendingLoans].
Proof.
  repeat split; reflexivity.
Qed.

(** ** The ledger and the balance *)

Lemma paid_total_insert (lid id amt : Z) (d : db) :
  paid_total lid (insert_payment id amt d)
  = paid_total lid d + (if id =? lid then amt else 0).
Proof.
  unfold paid_total, payments_of, insert_payment. simpl.
  rewrite filter_app, map_app, fold_right_app. simpl.
  destruct (id =? lid); simpl.
  - induction (filter _ (payments d)) as [| p ps IH]; simpl; lia.
  - rewrite Z.add_0_r. reflexivity.
Qed.

Lemma paid_total_payments (lid : Z) (d d' : db) :
  payments d' = payments d -> paid_total lid d' = paid_total lid d.
Proof. unfold paid_total, payments_of. intros ->. reflexivity. Qed.

Lemma paid_total_fresh (lid : Z) (d : db) :
  Forall (fun p => payment_loan p < lid) (payments d) -> paid_total lid d = 0.
Proof.
  unfold paid_total, payments_of.
  induction (payments d) as [| p ps IH]; simpl; [reflexivity |].
  intros H. inversion H as [| ? ? Hp Hps]; subst.
  assert (E : (payment_loan p =? lid) = false) by (apply Z.eqb_neq; lia).
  rewrite E. apply IH. assumption.
Qed.

Lemma in_select_approved (uid lid a b : Z) (d : db) :
  In (lid, a, b) (select_approved_loans uid d) ->
  exists l, In l (loans d) /\ loan_id l = lid /\ amount l = a /\ balance l = b
            /\ loan_user l = uid /\ loan_status l = approved.
Proof.
  rewrite select_approved_loans_eq. intros H.
  apply in_map_iff in H. destruct H as [l [Hrow Hin]].
  apply filter_In in Hin. destruct Hin as [Hin Ho].
  apply offered_iff in Ho. unfold row_of in Hrow. inversion Hrow; subst.
  exists l. tauto.
Qed.

Lemma NoDup_snoc (xs : list Z) (x : Z) :
  NoDup xs -> ~ In x xs -> NoDup (xs ++ [x]).
Proof.
  induction xs as [| y ys IH]; simpl; intros Hnd Hx.
  - constructor; [intros [] | constructor].
  - inversion Hnd as [| ? ? Hy Hys]; subst. constructor.
    + intros H. apply in_app_or in H. destruct H as [H | [H | []]]; auto.
    + apply IH; auto.
Qed.

Lemma transition_invariant (d d' : db) :
  transition d d' -> store_invariant d -> store_invariant d'.
Proof.
  intros Ht [(Hnd & Hlt & Hpl) Hrec].
  unfold reconciled in Hrec. rewrite Forall_forall in Hlt, Hpl, Hrec.
  destruct Ht as [name hash Hfree | uid amt trm Hamt Htrm
                  | uid lid a b amt Hin Hamt | s lid Hs Hpend].
  - (* register *)
    split; [split; [| split] |]; unfold loan_ids_unique, reconciled; simpl;
      try assumption; rewrite Forall_forall; auto.
  - (* apply *)
    split; [split; [| split] |]; unfold loan_ids_unique, reconciled; simpl.
    + rewrite map_app. simpl. apply NoDup_snoc; [assumption |].
      intros H. apply in_map_iff in H. destruct H as [l [Hid Hl]].
      specialize (Hlt l Hl). simpl in Hlt. lia.
    + rewrite Forall_forall. intros l Hl. apply in_app_or in Hl.
      destruct Hl as [Hl | [<- | []]]; [specialize (Hlt l Hl) |]; simpl in *; lia.
    + rewrite Forall_forall. intros p Hp. specialize (Hpl p Hp). simpl in Hpl. lia.
    + rewrite Forall_forall. intros l Hl. apply in_app_or in Hl.
      rewrite (paid_total_payments _ d) by reflexivity.
      destruct Hl as [Hl | [<- | []]]; [apply Hrec; assumption |].
      simpl. rewrite paid_total_fresh; [lia |].
      rewrite Forall_forall. assumption.
  - (* payment *)
    apply in_select_approved in Hin.
    destruct Hin as [l (Hl & Hid & Ha & Hb & _ & _)]. subst a b.
    rewrite (payment_statements_unique d lid amt l Hnd Hl Hid).
    assert (Hids : map loan_id
                     (map (fun x => if loan_id x =? lid then after_payment amt l else x)
                          (loans d)) = map loan_id (loans d)).
    { rewrite map_map. apply map_ext. intros x.
      destruct (loan_id x =? lid) eqn:E; [| reflexivity].
      apply Z.eqb_eq in E. simpl. congruence. }
    split; [split; [| split] |]; unfold loan_ids_unique, reconciled; simpl.
    + rewrite Hids. assumption.
    + rewrite Forall_forall. intros x Hx. apply in_map_iff in Hx.
      destruct Hx as [y [Hy Hin]]. pose proof (Hlt y Hin) as Hylt.
      pose proof (Hlt l Hl) as Hllt. simpl in Hylt, Hllt.
      destruct (loan_id y =? lid) eqn:E; subst x; simpl; assumption.
    + rewrite Forall_forall. intros p Hp. apply in_app_or in Hp.
      destruct Hp as [Hp | [<- | []]]; [apply (Hpl p Hp) |].
      simpl. specialize (Hlt l Hl). simpl in Hlt. lia.
    + rewrite Forall_forall. intros x Hx. apply in_map_iff in Hx.
      destruct Hx as [y [Hy Hin]].
      change (paid_total (loan_id x)
                (insert_payment lid amt
                   (mkDb (users d)
                      (map (fun x => if loan_id x =? lid then after_payment amt l else x)
                           (loans d))
                      (payments d) (next_user_id d) (next_loan_id d)
                      (next_payment_id d)))
              = amount x - balance x).
      rewrite paid_total_insert.
      rewrite (paid_total_payments _ d) by reflexivity.
      destruct (loan_id y =? lid) eqn:E; subst x.
      * simpl. rewrite Hid, Z.eqb_refl. rewrite <- Hid. rewrite (Hrec l Hl). lia.
      * rewrite Z.eqb_sym, E. rewrite (Hrec y Hin). lia.
  - (* approve, reject *)
    assert (Hids : map loan_id (loans (update_status s lid d)) = map loan_id (loans d)).
    { simpl. rewrite map_map. apply map_ext. intros x.
      destruct (loan_id x =? lid); reflexivity. }
    split; [split; [| split] |]; unfold loan_ids_unique, reconciled.
    + rewrite Hids. assumption.
    + rewrite Forall_forall. intros x Hx. simpl in Hx. apply in_map_iff in Hx.
      destruct Hx as [y [Hy Hin]]. specialize (Hlt y Hin).
      destruct (loan_id y =? lid); subst x; simpl; assumption.
    + rewrite Forall_forall. intros p Hp. apply (Hpl p Hp).
    + rewrite Forall_forall. intros x Hx. simpl in Hx. apply in_map_iff in Hx.
      destruct Hx as [y [Hy Hin]]. rewrite (paid_total_payments _ d) by reflexivity.
      specialize (Hrec y Hin).
      destruct (loan_id y =? lid); subst x; simpl; assumption.
Qed.

(** ** Runs of the program on a reliable store *)

Lemma advance_refl (w : world) (o : list message) :
  reliable w -> crashed w = false ->
  advance w (mkWorld (store w) [] o false).
Proof. intros _ _. repeat split. left. reflexivity. Qed.

Lemma apply_for_loan_advance (user : session) (amount_in term_in : option Z)
      (w : world) :
  reliable w -> crashed w = false ->
  advance w (run (apply_for_loan user amount_in term_in) w).
Proof.
  intros Hrel Hc. unfold apply_for_loan.
  destruct amount_in as [a |];
    [| run_op; rewrite Hrel, Hc; apply advance_refl; assumption].
  destruct term_in as [t |];
    [| run_op; rewrite Hrel, Hc; apply advance_refl; assumption].
  destruct ((a <=? 0) || (t <=? 0)) eqn:E;
    [run_op; rewrite Hrel, Hc; apply advance_refl; assumption |].
  apply orb_false_iff in E. destruct E as [Ea Et].
  apply Z.leb_gt in Ea, Et.
  run_op. rewrite Hrel, Hc. simpl. repeat split.
  right. apply t_apply; assumption.
Qed.

Lemma view_loans_advance (user : session) (w : world) :
  reliable w -> crashed w = false -> advance w (run (view_loans user) w).
Proof.
  intros Hrel Hc. unfold view_loans. run_op. rewrite Hrel, Hc. simpl.
  destruct (select_loans_of (sid user) (store w)); simpl;
    repeat split; left; reflexivity.
Qed.

Lemma manage_users_advance (w : world) :
  reliable w -> crashed w = false -> advance w (run manage_users w).
Proof.
  intros Hrel Hc. unfold manage_users. run_op. rewrite Hrel, Hc. simpl.
  repeat split. left. reflexivity.
Qed.

Lemma make_payment_advance (user : session) (loan_id_in amount_in : option Z)
      (w : world) :
  reliable w -> crashed w = false ->
  advance w (run (make_payment user loan_id_in amount_in) w).
Proof.
  intros Hrel Hc.
  remember (run (make_payment user loan_id_in amount_in) w) as w' eqn:Hw.
  unfold make_payment in Hw.
  unfold run in Hw. unfold bind at 1 in Hw. unfold execute_fetch in Hw.
  rewrite Hrel, Hc in Hw. simpl hd in Hw. simpl tl in Hw. cbv iota in Hw.
  destruct (select_approved_loans (sid user) (store w)) as [| r rs] eqn:Hrows;
    [subst w'; run_op; apply advance_refl; assumption |].
  destruct loan_id_in as [lid |]; [| subst w'; run_op; apply advance_refl; assumption].
  destruct amount_in as [amt |]; [| subst w'; run_op; apply advance_refl; assumption].
  destruct (find _ (r :: rs)) as [sel |] eqn:Hfind;
    [| subst w'; run_op; apply advance_refl; assumption].
  destruct (amt <=? 0) eqn:E1; [subst w'; run_op; apply advance_refl; assumption |].
  destruct (amt >? snd sel) eqn:E2; [subst w'; run_op; apply advance_refl; assumption |].
  apply Z.leb_gt in E1. rewrite Z.gtb_ltb in E2. apply Z.ltb_ge in E2.
  apply find_some in Hfind. destruct Hfind as [Hin Hid]. apply Z.eqb_eq in Hid.
  destruct sel as [[i a] b]. simpl in Hid, E2. subst i.
  assert (Hs : store w' = payment_statements false false false lid amt (b - amt) (store w)).
  { subst w'. cbn [snd]. exact (run_payment_statements (store w) [] (out w) false lid amt (b - amt)). }
  repeat split.
  - subst w'. cbn [snd]. run_op. destruct (b - amt =? 0); reflexivity.
  - subst w'. cbn [snd]. run_op. destruct (b - amt =? 0); reflexivity.
  - right. rewrite Hs. apply t_pay with (uid := sid user) (a := a).
    + rewrite Hrows. assumption.
    + lia.
Qed.

Lemma review_pending_loans_advance (loan_id_in : option Z) (action_in : string)
      (w : world) :
  reliable w -> crashed w = false ->
  advance w (run (review_pending_loans loan_id_in action_in) w).
Proof.
  intros Hrel Hc. unfold review_pending_loans. run_op. rewrite Hrel, Hc. simpl.
  destruct (select_pending_loans (store w)) as [| r rs] eqn:Hrows; simpl;
    [repeat split; left; reflexivity |].
  destruct loan_id_in as [lid |]; [| repeat split; left; reflexivity].
  destruct (String.eqb (lower action_in) "a").
  - simpl. repeat split. right. apply t_decide; [tauto | congruence].
  - destruct (String.eqb (lower action_in) "r").
    + simpl. repeat split. right. apply t_decide; [tauto | congruence].
    + repeat split. left. reflexivity.
Qed.

Lemma user_step_advance (user : session) (c : user_choice) (w : world) :
  reliable w -> crashed w = false -> advance w (run (user_step user c) w).
Proof.
  intros Hrel Hc. destruct c; simpl.
  - apply apply_for_loan_advance; assumption.
  - apply view_loans_advance; assumption.
  - apply make_payment_advance; assumption.
  - destruct (sadmin user); [apply review_pending_loans_advance; assumption |].
    run_op. rewrite Hrel, Hc. apply advance_refl; assumption.
  - destruct (sadmin user); [apply manage_users_advance; assumption |].
    run_op. rewrite Hrel, Hc. apply advance_refl; assumption.
  - run_op. rewrite Hrel, Hc. apply advance_refl; assumption.
Qed.

Section ReliableRuns.

Variable hashpw : string -> string -> string.
Variable checkpw : string -> string -> bool.

(** A property of the store that every transition keeps. *)
Variable P : db -> Prop.
Hypothesis P_transition : forall d d', transition d d' -> P d -> P d'.

Lemma advance_keeps (w w' : world) : advance w w' -> P (store w) -> P (store w').
Proof.
  intros (_ & _ & [-> | Ht]) HP; [assumption |].
  apply (P_transition _ _ Ht HP).
Qed.

Lemma show_user_menu_keeps (user : session) (choices : list user_choice) :
  forall w,
    reliable w -> crashed w = false -> P (store w) ->
    reliable (run (show_user_menu user choices) w)
    /\ crashed (run (show_user_menu user choices) w) = false
    /\ P (store (run (show_user_menu user choices) w)).
Proof.
  induction choices as [| c rest IH]; intros w Hrel Hc HP.
  - repeat split; assumption.
  - pose proof (user_step_advance user c w Hrel Hc) as Hadv.
    pose proof (advance_keeps _ _ Hadv HP) as HP'.
    destruct Hadv as (Hrel' & Hc' & _).
    unfold run at 1 2 3. simpl. rewrite Hc'.
    apply (IH _ Hrel' Hc' HP').
Qed.

Lemma register_advance (name password confirm salt : string) (w : world) :
  reliable w -> crashed w = false ->
  advance w (run (register hashpw name password confirm salt) w).
Proof.
  intros Hrel Hc. unfold register. run_op. rewrite Hrel, Hc. simpl.
  destruct (select_user name (store w)) as [| u us] eqn:Hrows; simpl.
  - destruct (String.eqb password confirm); simpl.
    + repeat split. right. apply t_register. assumption.
    + repeat split. left. reflexivity.
  - repeat split. left. reflexivity.
Qed.

Lemma main_step_keeps (c : main_choice) (w : world) :
  reliable w -> crashed w = false -> P (store w) ->
  reliable (run (main_step hashpw checkpw c) w)
  /\ crashed (run (main_step hashpw checkpw c) w) = false
  /\ P (store (run (main_step hashpw checkpw c) w)).
Proof.
  intros Hrel Hc HP. destruct c as [name password confirm salt | name password menu |].
  - pose proof (register_advance name password confirm salt w Hrel Hc) as Hadv.
    pose proof (advance_keeps _ _ Hadv HP) as HP'.
    destruct Hadv as (Hrel' & Hc' & _). auto.
  - unfold main_step, login. unfold run, bind, execute_fetch.
    rewrite Hrel. simpl hd. simpl tl. cbv iota.
    destruct (select_user name (store w)) as [| u us].
    + simpl. rewrite Hc. repeat split; assumption.
    + destruct (checkpw password (password_hash u)); simpl.
      * apply show_user_menu_keeps; simpl; auto. reflexivity.
      * rewrite Hc. repeat split; assumption.
  - simpl. run_op. rewrite Hrel, Hc. repeat split; assumption.
Qed.

Lemma main_loop_keeps (choices : list main_choice) :
  forall w,
    reliable w -> crashed w = false -> P (store w) ->
    P (store (run (main_loop hashpw checkpw choices) w)).
Proof.
  induction choices as [| c rest IH]; intros w Hrel Hc HP.
  - assumption.
  - destruct (main_step_keeps c w Hrel Hc HP) as (Hrel' & Hc' & HP').
    unfold run at 1. simpl. rewrite Hc'.
    apply (IH _ Hrel' Hc' HP').
Qed.

(** Every store the program reaches on a reliable store has the property,
    if the store after start-up has it. *)
Lemma main_keeps (salt : string) (choices : list main_choice) :
  P (create_tables hashpw salt empty_db) ->
  P (store (main hashpw checkpw salt [] choices)).
Proof.
  intros H0. unfold main. apply main_loop_keeps; [reflexivity | reflexivity | assumption].
Qed.

End ReliableRuns.

Lemma store_invariant_boot (hashpw : string -> string -> string) (salt : string) :
  store_invariant (create_tables hashpw salt empty_db).
Proof.
  repeat split; simpl; constructor.
Qed.

(** C4. In every store the program reaches on a reliable store, and so
    after every sequence of payments that went through, the ledger entries
    of each loan add up to its amount minus its balance. *)
Theorem ledger_reconciles (hashpw : string -> string -> string)
        (checkpw : string -> string -> bool) (salt : string)
        (choices : list main_choice) :
  Forall (fun l =>
            paid_total (loan_id l) (store (main hashpw checkpw salt [] choices))
            = amount l - balance l)
         (loans (store (main hashpw checkpw salt [] choices))).
Proof.
  apply (main_keeps hashpw checkpw store_invariant transition_invariant salt choices).
  apply store_invariant_boot.
Qed.

(** After Alice has paid loan 1 off its ledger holds the full 1000.00. *)
Example ledger_of_paid_loan :
  paid_total 1 (store (demo_main [] paid_loan_session)) = 100000
  /\ balance_of 1 (store (demo_main [] paid_loan_session)) = Some 0.
Proof. split; reflexivity. Qed.

(** ** The loan invariant *)

Lemma loan_invariant_after_payment (amt : Z) (l : loan_row) :
  loan_invariant l = true -> loan_status l = approved -> 0 < amt ->
  loan_invariant (after_payment amt l) = true.
Proof.
  unfold loan_invariant, after_payment. simpl. intros H Hst Hamt.
  apply andb_true_iff in H. destruct H as [Hle _]. apply Z.leb_le in Hle.
  apply andb_true_iff. split; [apply Z.leb_le; lia |].
  destruct (balance l - amt =? 0); [reflexivity |]. rewrite Hst. reflexivity.
Qed.

Lemma loan_invariant_set_status (s : status) (l : loan_row) :
  loan_invariant l = true -> loan_status l <> paid -> s <> paid ->
  loan_invariant (set_status s l) = true.
Proof.
  unfold loan_invariant, set_status. simpl. intros H Hl Hs.
  apply andb_true_iff in H. destruct H as [Hle Hiff].
  rewrite Hle. simpl.
  assert (E1 : status_eqb (loan_status l) paid = false).
  { destruct (status_eqb (loan_status l) paid) eqn:E; [| reflexivity].
    apply status_eqb_eq in E. contradiction. }
  assert (E2 : status_eqb s paid = false).
  { destruct (status_eqb s paid) eqn:E; [| reflexivity].
    apply status_eqb_eq in E. contradiction. }
  rewrite E1 in Hiff. rewrite E2. assumption.
Qed.

(** Every transition keeps the loan invariant, except a decision typed for
    the number of a loan that is already paid. *)
Lemma transition_loan_invariant (d d' : db) :
  transition d d' -> loan_ids_unique d ->
  forallb loan_invariant (loans d) = true ->
  forallb loan_invariant (loans d') = true
  \/ exists s lid l,
      d' = update_status s lid d /\ In l (loans d) /\ loan_id l = lid
      /\ loan_status l = paid.
Proof.
  intros Ht Hnd Hinv. rewrite forallb_forall in Hinv.
  destruct Ht as [name hash Hfree | uid amt trm Hamt Htrm
                  | uid lid a b amt Hin Hamt | s lid Hs Hpend].
  - left. apply forallb_forall. assumption.
  - left. simpl. rewrite forallb_app. apply andb_true_iff. split.
    + apply forallb_forall. assumption.
    + unfold loan_invariant. simpl. rewrite Z.leb_refl.
      assert (E : (amt =? 0) = false) by (apply Z.eqb_neq; lia).
      rewrite E. reflexivity.
  - left. apply in_select_approved in Hin.
    destruct Hin as [l (Hl & Hid & Ha & Hb & _ & Hst)]. subst a b.
    rewrite (payment_statements_unique d lid amt l Hnd Hl Hid). simpl.
    apply forallb_forall. intros x Hx. apply in_map_iff in Hx.
    destruct Hx as [y [Hy Hyin]].
    destruct (loan_id y =? lid); subst x; [| apply Hinv; assumption].
    apply loan_invariant_after_payment; [apply Hinv; assumption | assumption | lia].
  - destruct (existsb (fun l => (loan_id l =? lid) && status_eqb (loan_status l) paid)
                      (loans d)) eqn:E.
    + right. apply existsb_exists in E. destruct E as [l [Hl Hc]].
      apply andb_true_iff in Hc. destruct Hc as [Hid Hst].
      apply Z.eqb_eq in Hid. apply status_eqb_eq in Hst.
      exists s, lid, l. auto.
    + left. simpl. apply forallb_forall. intros x Hx. apply in_map_iff in Hx.
      destruct Hx as [y [Hy Hyin]].
      destruct (loan_id y =? lid) eqn:Ey; subst x; [| apply Hinv; assumption].
      apply loan_invariant_set_status; [apply Hinv; assumption | |].
      * intros Hp.
        assert (Hex : existsb (fun l => (loan_id l =? lid)
                                        && status_eqb (loan_status l) paid)
                              (loans d) = true).
        { apply existsb_exists. exists y. split; [assumption |].
          rewrite Ey, Hp. reflexivity. }
        congruence.
      * destruct Hs as [-> | ->]; discriminate.
Qed.



(** ** Runs of the program on any store *)

Section AnyRun.

Variable hashpw : string -> string -> string.
Variable checkpw : string -> string -> bool.

(** A property of the store that every single statement keeps. *)
Variable P : db -> Prop.
Hypothesis P_statement : forall d d', statement d d' -> P d -> P d'.

Lemma keeps_ret {A} (a : A) : keeps P (ret a).
Proof. intros w H. assumption. Qed.

Lemma keeps_print (m : message) : keeps P (print m).
Proof. intros w H. assumption. Qed.

Lemma keeps_crash : keeps P crash.
Proof. intros w H. assumption. Qed.

Lemma keeps_execute_fetch {A} (q : db -> list A) : keeps P (execute_fetch q).
Proof.
  intros w H. unfold execute_fetch. destruct (hd false (faults w)); assumption.
Qed.

Lemma keeps_execute (stmt : db -> db) :
  (forall d, statement d (stmt d)) -> keeps P (execute stmt).
Proof.
  intros Hs w H. unfold execute. destruct (hd false (faults w)); simpl;
    [assumption | apply (P_statement _ _ (Hs (store w)) H)].
Qed.

Lemma keeps_bind {A B} (m : M A) (k : A -> M B) :
  keeps P m -> (forall a, keeps P (k a)) -> keeps P (bind m k).
Proof.
  intros Hm Hk w H. unfold bind. specialize (Hm w H).
  destruct (m w) as [a w1]. apply (Hk a w1 Hm).
Qed.

Ltac keeps_step :=
  first [ apply keeps_ret | apply keeps_print | apply keeps_crash
        | apply keeps_execute_fetch
        | apply keeps_execute; intros; constructor
        | apply keeps_bind; [| intros ?] ].

Lemma keeps_apply_for_loan (user : session) (a t : option Z) :
  keeps P (apply_for_loan user a t).
Proof.
  unfold apply_for_loan. destruct a as [amt |]; [| keeps_step].
  destruct t as [trm |]; [| keeps_step].
  destruct ((amt <=? 0) || (trm <=? 0)); repeat keeps_step.
Qed.

Lemma keeps_view_loans (user : session) : keeps P (view_loans user).
Proof.
  unfold view_loans. keeps_step; [keeps_step |].
  destruct (no_rows a); keeps_step.
Qed.

Lemma keeps_make_payment (user : session) (l a : option Z) :
  keeps P (make_payment user l a).
Proof.
  unfold make_payment. keeps_step; [keeps_step |].
  destruct a0 as [[| r rs] |]; try keeps_step.
  destruct l as [lid |]; [| keeps_step].
  destruct a as [amt |]; [| keeps_step].
  destruct (find _ (r :: rs)) as [sel |]; [| keeps_step].
  destruct (amt <=? 0); [keeps_step |].
  destruct (amt >? snd sel); [keeps_step |].
  cbv zeta. destruct (snd sel - amt =? 0); repeat keeps_step.
Qed.

Lemma keeps_review_pending_loans (l : option Z) (action_in : string) :
  keeps P (review_pending_loans l action_in).
Proof.
  unfold review_pending_loans. keeps_step; [keeps_step |].
  destruct (no_rows a); [keeps_step |].
  destruct l as [lid |]; [| keeps_step].
  cbv zeta. destruct (String.eqb (lower action_in) "a"); [repeat keeps_step |].
  destruct (String.eqb (lower action_in) "r"); repeat keeps_step.
Qed.

Lemma keeps_manage_users : keeps P manage_users.
Proof.
  unfold manage_users. keeps_step; [keeps_step |]. destruct a; keeps_step.
Qed.

Lemma keeps_user_step (user : session) (c : user_choice) : keeps P (user_step user c).
Proof.
  destruct c; simpl.
  - apply keeps_apply_for_loan.
  - apply keeps_view_loans.
  - apply keeps_make_payment.
  - destruct (sadmin user); [apply keeps_review_pending_loans | keeps_step].
  - destruct (sadmin user); [apply keeps_manage_users | keeps_step].
  - keeps_step.
Qed.

Lemma keeps_show_user_menu (user : session) (choices : list user_choice) :
  keeps P (show_user_menu user choices).
Proof.
  induction choices as [| c rest IH]; intros w H; [assumption |].
  simpl. pose proof (keeps_user_step user c w H) as H1. fold (run (user_step user c) w) in H1.
  destruct (crashed (run (user_step user c) w)); [assumption |].
  apply IH. assumption.
Qed.

Lemma keeps_register (name password confirm salt : string) :
  keeps P (register hashpw name password confirm salt).
Proof.
  unfold register. keeps_step; [keeps_step |].
  destruct (negb (no_rows a)); [keeps_step |].
  destruct (negb (String.eqb password confirm)); repeat keeps_step.
Qed.

Lemma keeps_main_step (c : main_choice) : keeps P (main_step hashpw checkpw c).
Proof.
  destruct c as [name password confirm salt | name password menu |]; simpl.
  - apply keeps_register.
  - keeps_step.
    + unfold login. keeps_step; [keeps_step |].
      destruct a as [[| u us] |]; repeat keeps_step.
      destruct (negb (checkpw password (password_hash u))); repeat keeps_step.
    + destruct a as [u |]; [apply keeps_show_user_menu | keeps_step].
  - keeps_step.
Qed.

Lemma keeps_main_loop (choices : list main_choice) :
  keeps P (main_loop hashpw checkpw choices).
Proof.
  induction choices as [| c rest IH]; intros w H; [assumption |].
  simpl. pose proof (keeps_main_step c w H) as H1.
  fold (run (main_step hashpw checkpw c) w) in H1.
  destruct (crashed (run (main_step hashpw checkpw c) w)); [assumption |].
  apply IH. assumption.
Qed.

(** Every store the program reaches has the property, whatever the store
    does, if the store after start-up has it. *)
Lemma main_keeps_any (salt : string) (schedule : list bool)
      (choices : list main_choice) :
  P (create_tables hashpw salt empty_db) ->
  P (store (main hashpw checkpw salt schedule choices)).
Proof.
  intros H0. unfold main, run. apply keeps_main_loop. assumption.
Qed.

End AnyRun.

Lemma update_loans_ids (f : loan_row -> loan_row) (lid : Z) (d : db) :
  (forall l, loan_id (f l) = loan_id l) ->
  map loan_id (loans (update_loans f lid d)) = map loan_id (loans d).
Proof.
  intros Hf. simpl. rewrite map_map. apply map_ext. intros l.
  destruct (loan_id l =? lid); [apply Hf | reflexivity].
Qed.

Lemma loan_keys_ids (d d' : db) :
  map loan_id (loans d') = map loan_id (loans d) ->
  next_loan_id d' = next_loan_id d ->
  loan_keys d -> loan_keys d'.
Proof.
  unfold loan_keys, loan_ids_unique. intros Hids Hnext [Hnd Hlt].
  rewrite Hids. split; [assumption |].
  apply (proj1 (Forall_map loan_id (fun i => i < next_loan_id d') (loans d'))).
  rewrite Hids, Hnext.
  apply (proj2 (Forall_map loan_id (fun i => i < next_loan_id d) (loans d))).
  assumption.
Qed.

Lemma statement_loan_keys (d d' : db) :
  statement d d' -> loan_keys d -> loan_keys d'.
Proof.
  intros Hs Hk. destruct Hs as [name hash | uid amt trm rate bal | b lid | lid amt | s lid].
  - apply (loan_keys_ids d); auto.
  - destruct Hk as [Hnd Hlt]. unfold loan_keys, loan_ids_unique. simpl.
    rewrite Forall_forall in Hlt. split.
    + rewrite map_app. simpl. apply NoDup_snoc; [assumption |].
      intros H. apply in_map_iff in H. destruct H as [l [Hid Hl]].
      specialize (Hlt l Hl). simpl in Hlt. lia.
    + rewrite Forall_forall. intros l Hl. apply in_app_or in Hl.
      destruct Hl as [Hl | [<- | []]]; [specialize (Hlt l Hl) |]; simpl in *; lia.
  - apply (loan_keys_ids d); auto. apply update_loans_ids. reflexivity.
  - apply (loan_keys_ids d); auto.
  - apply (loan_keys_ids d); auto. apply update_loans_ids. reflexivity.
Qed.

(** In every store the program reaches, whatever the store does, no two
    loans share an id. *)
Lemma reachable_loan_ids_unique (hashpw : string -> string -> string)
      (checkpw : string -> string -> bool) (salt : string)
      (schedule : list bool) (choices : list main_choice) :
  loan_ids_unique (store (main hashpw checkpw salt schedule choices)).
Proof.
  apply (main_keeps_any hashpw checkpw loan_keys statement_loan_keys).
  split; simpl; constructor.
Qed.

(** * Further properties of the program *)

(** ** Start-up *)

(** [create_tables] makes sure an account named "admin" exists and is
    idempotent: on a store that has one it changes nothing, so running it
    again (with whatever salt) leaves the store as the first run left it;
    when it does insert, the account is an admin with the hash of the
    default password, and every stored row stays as it was. *)
Theorem create_tables_idempotent (hashpw : string -> string -> string)
        (salt salt' : string) (d : db) :
  create_tables hashpw salt' (create_tables hashpw salt d)
  = create_tables hashpw salt d
  /\ In "admin"%string (map username (users (create_tables hashpw salt d)))
  /\ (In "admin"%string (map username (users d)) ->
      create_tables hashpw salt d = d)
  /\ (~ In "admin"%string (map username (users d)) ->
      users (create_tables hashpw salt d)
      = users d ++ [mkUser (next_user_id d) "admin"
                           (hashpw "admin123"%string salt) true])
  /\ loans (create_tables hashpw salt d) = loans d
  /\ payments (create_tables hashpw salt d) = payments d.
Proof.
  pose proof (select_user_nil "admin" d) as Hnil.
  assert (Hadm : select_user "admin"
                   (insert_user_full "admin" (hashpw "admin123"%string salt) true d)
                 <> []).
  { unfold select_user, insert_user_full. simpl. rewrite filter_app. simpl.
    intros H. apply app_eq_nil in H. destruct H as [_ H]. discriminate. }
  unfold create_tables.
  destruct (select_user "admin" d) as [| u us] eqn:E.
  - repeat split; try reflexivity.
    + destruct (select_user "admin" (insert_user_full _ _ _ d)) eqn:E2;
        [contradiction | reflexivity].
    + simpl. rewrite map_app. apply in_or_app. right. left. reflexivity.
    + intros Hin. exfalso. apply (proj1 Hnil); [reflexivity | assumption].
  - rewrite E. repeat split; try reflexivity.
    + destruct (in_dec string_dec "admin"%string (map username (users d)));
        [assumption |].
      apply Hnil in n. discriminate.
    + intros Hnot. apply Hnil in Hnot. discriminate.
Qed.

(** ** Login *)

Section LoginProperties.

Variable hashpw : string -> string -> string.
Variable checkpw : string -> string -> bool.

Lemma select_user_in (name : string) (d : db) (u : user_row) :
  In u (select_user name d) <-> In u (users d) /\ username u = name.
Proof.
  unfold select_user. rewrite filter_In.
  split; intros [H1 H2]; split; try assumption; apply String.eqb_eq; assumption.
Qed.

(** [login] never changes the store.  It returns a session exactly when
    the fetch succeeds, a user of that very name is stored and the password
    verifies against the hash of the first such row; the session then
    carries the id and the admin flag of that row.  In every other case it
    prints "Invalid credentials!" and returns nothing. *)
Theorem login_spec (name password : string) (w : world) :
  store (snd (login checkpw name password w)) = store w
  /\ (forall s,
         fst (login checkpw name password w) = Some s <->
         fault_at 0 w = false
         /\ exists u rest,
             select_user name (store w) = u :: rest
             /\ checkpw password (password_hash u) = true
             /\ s = mkSession (user_id u) name (is_admin u))
  /\ (forall s, fst (login checkpw name password w) = Some s ->
      exists u, In u (users (store w)) /\ username u = name
                /\ sid s = user_id u /\ sadmin s = is_admin u
                /\ out (snd (login checkpw name password w)) = out w ++ [Welcome])
  /\ (fst (login checkpw name password w) = None ->
      last (out (snd (login checkpw name password w))) Welcome = InvalidCredentials).
Proof.
  unfold login, bind, execute_fetch, print, ret. rewrite fault_at_0.
  destruct (hd false (faults w)); simpl.
  - split; [reflexivity |]. split; [| split].
    + intros s. split; [discriminate | intros [H _]; discriminate].
    + discriminate.
    + intros _. apply last_last.
  - destruct (select_user name (store w)) as [| u us] eqn:E; simpl.
    + split; [reflexivity |]. split; [| split].
      * intros s. split; [discriminate |].
        intros [_ (u & rest & H & _)]. discriminate.
      * discriminate.
      * intros _. apply last_last.
    + assert (Hu : In u (users (store w)) /\ username u = name).
      { apply select_user_in. rewrite E. left. reflexivity. }
      destruct (checkpw password (password_hash u)) eqn:Hc; simpl.
      * split; [reflexivity |]. split; [| split].
        -- intros s. split.
           ++ intros [= <-]. split; [reflexivity |]. exists u, us. auto.
           ++ intros [_ (u' & rest & [= <- <-] & _ & ->)]. reflexivity.
        -- intros s [= <-]. exists u. simpl. tauto.
        -- discriminate.
      * split; [reflexivity |]. split; [| split].
        -- intros s. split; [discriminate |].
           intros [_ (u' & rest & [= <- <-] & Hc' & _)]. congruence.
        -- discriminate.
        -- intros _. apply last_last.
Qed.

(** Without credentials that verify, choosing "Login" does nothing to the
    store, whatever menu choices are typed after it and whatever the store
    does: the user menu is not entered. *)
Theorem login_failure_gates_menu (name password : string)
        (menu : list user_choice) (w : world) :
  (forall u, In u (users (store w)) -> username u = name ->
             checkpw password (password_hash u) = false) ->
  store (run (main_step hashpw checkpw (MenuLogin name password menu)) w) = store w
  /\ last (out (run (main_step hashpw checkpw (MenuLogin name password menu)) w))
          Welcome = InvalidCredentials
  /\ ~ In Welcome
       (skipn (List.length (out w))
              (out (run (main_step hashpw checkpw (MenuLogin name password menu)) w))).
Proof.
  intros Hbad. unfold main_step, login, run, bind, execute_fetch, print, ret.
  destruct (hd false (faults w)); simpl.
  - split; [reflexivity |]. split; [apply last_last |].
    rewrite <- app_assoc, skipn_printed. simpl. intros [H | [H | []]]; discriminate.
  - destruct (select_user name (store w)) as [| u us] eqn:E; simpl.
    + split; [reflexivity |]. split; [apply last_last |].
      rewrite skipn_printed. simpl. intros [H | []]; discriminate.
    + assert (Hu : In u (users (store w)) /\ username u = name).
      { apply select_user_in. rewrite E. left. reflexivity. }
      rewrite (Hbad u (proj1 Hu) (proj2 Hu)). simpl.
      split; [reflexivity |]. split; [apply last_last |].
      rewrite skipn_printed. simpl. intros [H | []]; discriminate.
Qed.

(** Registering and then logging in.  Provided bcrypt verifies a password
    against its own hash: after a registration that goes through (free
    name, the password typed the same twice, reliable store) a login with
    that name and password succeeds, and the session is the new account's:
    the id the store handed out, not an admin. *)
Theorem register_then_login (name password salt : string) (w : world) :
  (forall p s, checkpw p (hashpw p s) = true) ->
  reliable w ->
  ~ In name (map username (users (store w))) ->
  fst (login checkpw name password
             (run (register hashpw name password password salt) w))
  = Some (mkSession (next_user_id (store w)) name false).
Proof.
  intros Hbc Hrel Hfresh. apply select_user_nil in Hfresh.
  unfold register, run, bind, execute_fetch, execute, print. rewrite Hrel. simpl.
  rewrite Hfresh. simpl. rewrite String.eqb_refl. simpl.
  unfold login, bind, execute_fetch. simpl.
  unfold select_user in *. simpl. rewrite filter_app, Hfresh. simpl.
  rewrite String.eqb_refl. simpl. rewrite Hbc. reflexivity.
Qed.

End LoginProperties.

Lemma substring_whole (s : string) : substring 0 (String.length s) s = s.
Proof. induction s as [| c s IH]; simpl; [reflexivity | rewrite IH; reflexivity]. Qed.

Lemma string_length_append (a b : string) :
  String.length (a ++ b) = (String.length a + String.length b)%nat.
Proof. induction a as [| c a IH]; simpl; [reflexivity | rewrite IH; reflexivity]. Qed.

Lemma substring_after (a : string) (c : ascii) (b : string) (n : nat) :
  substring (String.length a + 1) n (a ++ String c b) = substring 0 n b.
Proof.
  induction a as [| x a IH]; simpl; [destruct b; reflexivity | exact IH].
Qed.

(** The stand-in verifies a password against its own hash. *)
Lemma demo_bcrypt_verifies (p s : string) :
  demo_checkpw p (demo_hashpw p s) = true.
Proof.
  unfold demo_checkpw, demo_hashpw. simpl append.
  rewrite string_length_append. simpl String.length.
  replace (String.length s + S (String.length p) - String.length p)%nat
    with (String.length s + 1)%nat by lia.
  rewrite substring_after, substring_whole. apply String.eqb_refl.
Qed.

Lemma register_then_login_witness :
  fst (login demo_checkpw "bob" "pw"
             (run (register demo_hashpw "bob" "pw" "pw" "salt2")
                  (demo_main [] approved_loan_session)))
  = Some (mkSession 3 "bob" false).
Proof.
  apply (register_then_login demo_hashpw demo_checkpw "bob" "pw" "salt2"
                             (demo_main [] approved_loan_session)).
  - exact demo_bcrypt_verifies.
  - reflexivity.
  - simpl. intros [H | [H | []]]; discriminate.
Defined.

Lemma login_failure_gates_menu_witness :
  store (run (main_step demo_hashpw demo_checkpw
                        (MenuLogin "alice" "guess"
                                   [ChoosePay (Some 1) (Some 40000)]))
             (demo_main [] approved_loan_session))
  = store (demo_main [] approved_loan_session).
Proof.
  apply (login_failure_gates_menu demo_hashpw demo_checkpw "alice" "guess"
           [ChoosePay (Some 1) (Some 40000)] (demo_main [] approved_loan_session)).
  simpl. intros u [<- | [<- | []]] H; [discriminate | reflexivity].
Defined.

(** ** Review of pending loans: what is typed *)

Lemma lower_ascii_a (c : ascii) :
  lower_ascii c = "a"%char <-> c = "a"%char \/ c = "A"%char.
Proof.
  destruct c as [[] [] [] [] [] [] [] []]; vm_compute;
    split; intros H; try discriminate; try (destruct H; discriminate); auto.
Qed.

Lemma lower_ascii_r (c : ascii) :
  lower_ascii c = "r"%char <-> c = "r"%char \/ c = "R"%char.
Proof.
  destruct c as [[] [] [] [] [] [] [] []]; vm_compute;
    split; intros H; try discriminate; try (destruct H; discriminate); auto.
Qed.

Lemma lower_one_letter (s : string) (c : ascii) :
  lower s = String c EmptyString <->
  exists x, s = String x EmptyString /\ lower_ascii x = c.
Proof.
  split.
  - destruct s as [| x [| y s]]; simpl; try discriminate.
    intros [= H]. exists x. auto.
  - intros [x [-> <-]]. reflexivity.
Qed.

Lemma lower_is_a (s : string) :
  lower s = "a"%string <-> s = "a"%string \/ s = "A"%string.
Proof.
  rewrite lower_one_letter. split.
  - intros [x [-> H]]. apply lower_ascii_a in H. destruct H as [-> | ->]; auto.
  - intros [-> | ->]; eexists; split; reflexivity.
Qed.

Lemma lower_is_r (s : string) :
  lower s = "r"%string <-> s = "r"%string \/ s = "R"%string.
Proof.
  rewrite lower_one_letter. split.
  - intros [x [-> H]]. apply lower_ascii_r in H. destruct H as [-> | ->]; auto.
  - intros [-> | ->]; eexists; split; reflexivity.
Qed.

(** The review takes a decision only from a loan number that parses and
    one of the four answers "a", "A", "r", "R".  Anything else (another
    letter, a word such as "approve", an empty line, a number that does not
    parse) leaves the store as it was, whatever the store does. *)
Theorem review_ignores_other_answers (loan_id_in : option Z) (action_in : string)
        (w : world) :
  loan_id_in = None
  \/ (action_in <> "a" /\ action_in <> "A" /\ action_in <> "r" /\ action_in <> "R")%string ->
  store (run (review_pending_loans loan_id_in action_in) w) = store w
  /\ ~ In LoanApproved
       (skipn (List.length (out w))
              (out (run (review_pending_loans loan_id_in action_in) w)))
  /\ ~ In LoanRejected
       (skipn (List.length (out w))
              (out (run (review_pending_loans loan_id_in action_in) w))).
Proof.
  intros H. unfold review_pending_loans. run_op.
  destruct (hd false (faults w)); simpl.
  - split; [reflexivity |]. rewrite <- app_assoc, skipn_printed. simpl.
    split; intros [H' | [H' | []]]; discriminate.
  - destruct (select_pending_loans (store w)) as [| r rs]; simpl.
    + split; [reflexivity |]. rewrite skipn_printed. simpl.
      split; intros [H' | []]; discriminate.
    + destruct loan_id_in as [lid |].
      * destruct H as [H | (Ha & HA & Hr & HR)]; [discriminate |].
        destruct (String.eqb_spec (lower action_in) "a") as [E | E].
        { apply lower_is_a in E. tauto. }
        destruct (String.eqb_spec (lower action_in) "r") as [E' | E'].
        { apply lower_is_r in E'. tauto. }
        simpl. split; [reflexivity |]. rewrite skipn_printed. simpl.
        split; intros [H' | []]; discriminate.
      * simpl. split; [reflexivity |]. rewrite skipn_printed. simpl.
        split; intros [H' | []]; discriminate.
Qed.

Lemma review_ignores_other_answers_witness :
  store (run (review_pending_loans (Some 2) "approve")
             (demo_main [] paid_loan_session))
  = store (demo_main [] paid_loan_session).
Proof.
  apply (review_ignores_other_answers (Some 2) "approve"
                                      (demo_main [] paid_loan_session)).
  right. repeat split; discriminate.
Defined.

(** Whatever is typed and whatever the store does, the review writes to
    nothing but the status column: accounts, ledger and counters stay, no
    loan is added or removed, and every loan keeps its id, owner, amount,
    term, rate and balance. *)
Theorem review_touches_status_only (loan_id_in : option Z) (action_in : string)
        (w : world) :
  let d := store w in
  let d' := store (run (review_pending_loans loan_id_in action_in) w) in
  users d' = users d /\ payments d' = payments d
  /\ next_user_id d' = next_user_id d /\ next_loan_id d' = next_loan_id d
  /\ next_payment_id d' = next_payment_id d
  /\ map (fun l => (loan_id l, loan_user l, amount l, term l, loan_rate l, balance l))
         (loans d')
     = map (fun l => (loan_id l, loan_user l, amount l, term l, loan_rate l, balance l))
           (loans d).
Proof.
  assert (Hupd : forall s lid d,
             map (fun l => (loan_id l, loan_user l, amount l, term l, loan_rate l,
                            balance l))
                 (loans (update_status s lid d))
             = map (fun l => (loan_id l, loan_user l, amount l, term l, loan_rate l,
                              balance l))
                   (loans d)).
  { intros s lid d. simpl. rewrite map_map. apply map_ext. intros l.
    destruct (loan_id l =? lid); reflexivity. }
  intros d d'. subst d d'. unfold review_pending_loans. run_op.
  destruct (hd false (faults w)); simpl; [repeat split; reflexivity |].
  destruct (select_pending_loans (store w)) as [| r rs]; simpl;
    [repeat split; reflexivity |].
  destruct loan_id_in as [lid |]; [| repeat split; reflexivity].
  destruct (String.eqb (lower action_in) "a"); simpl.
  - destruct (hd false (tl (faults w))); simpl; repeat split; try reflexivity.
    apply Hupd.
  - destruct (String.eqb (lower action_in) "r"); simpl;
      [| repeat split; reflexivity].
    destruct (hd false (tl (faults w))); simpl; repeat split; try reflexivity.
    apply Hupd.
Qed.

(** ** How the operations compose *)


Lemma update_status_unique (s : status) (d : db) (l : loan_row) :
  loan_ids_unique d -> In l (loans d) ->
  loans (update_status s (loan_id l) d)
  = map (fun x => if loan_id x =? loan_id l then set_status s l else x) (loans d).
Proof.
  intros Hu Hin. simpl. apply map_ext_in. intros x Hx.
  destruct (loan_id x =? loan_id l) eqn:E; [| reflexivity].
  apply Z.eqb_eq in E.
  rewrite (same_id_same_row (loans d) l x Hu Hin Hx E). reflexivity.
Qed.

Lemma replaced_row_in (lid : Z) (r l : loan_row) (ls : list loan_row) :
  In l ls -> loan_id l = lid ->
  In r (map (fun x => if loan_id x =? lid then r else x) ls).
Proof.
  intros Hin Hid. apply in_map_iff. exists l. split; [| assumption].
  apply Z.eqb_eq in Hid. rewrite Hid. reflexivity.
Qed.

Lemma replaced_ids (lid : Z) (r : loan_row) (ls : list loan_row) :
  loan_id r = lid ->
  map loan_id (map (fun x => if loan_id x =? lid then r else x) ls) = map loan_id ls.
Proof.
  intros Hr. rewrite map_map. apply map_ext. intros x.
  destruct (loan_id x =? lid) eqn:E; [| reflexivity].
  apply Z.eqb_eq in E. congruence.
Qed.

Lemma review_reliable (lid : Z) (action_in : string) (s : status) (w : world) :
  reliable w ->
  select_pending_loans (store w) <> [] ->
  (lower action_in = "a"%string /\ s = approved)
  \/ (lower action_in = "r"%string /\ s = rejected) ->
  run (review_pending_loans (Some lid) action_in) w
  = mkWorld (update_status s lid (store w)) []
            (out w ++ [if status_eqb s approved then LoanApproved else LoanRejected])
            (crashed w).
Proof.
  intros Hrel Hpend Hact. unfold review_pending_loans. run_op. rewrite Hrel. simpl.
  destruct (select_pending_loans (store w)) as [| r rs]; [contradiction |].
  simpl. destruct Hact as [[-> ->] | [-> ->]]; reflexivity.
Qed.

Lemma pending_loan_is_listed (d : db) (l : loan_row) (u : user_row) :
  In l (loans d) -> loan_status l = pending ->
  In u (users d) -> user_id u = loan_user l ->
  select_pending_loans d <> [].
Proof.
  intros Hl Hst Hu Hid H.
  assert (Hin : In (loan_id l, username u, amount l, term l) (select_pending_loans d)).
  { unfold select_pending_loans. apply in_flat_map. exists l. split.
    - apply filter_In. split; [assumption |]. rewrite Hst. reflexivity.
    - apply in_map_iff. exists u. split; [reflexivity |].
      apply filter_In. split; [assumption |]. apply Z.eqb_eq. congruence. }
  rewrite H in Hin. destruct Hin.
Qed.



(** A rejected loan takes no payment.  On a reliable store, once the admin
    answers "r" (or "R") for a pending loan, a payment on its number, by
    anyone and of any amount, is refused as not found and changes
    nothing. *)
Theorem reject_then_pay (user : session) (action_in : string) (amt : Z)
        (w : world) (l : loan_row) (u : user_row) :
  reliable w ->
  loan_ids_unique (store w) ->
  In l (loans (store w)) -> loan_status l = pending ->
  In u (users (store w)) -> user_id u = loan_user l ->
  action_in = "r"%string \/ action_in = "R"%string ->
  let w1 := run (review_pending_loans (Some (loan_id l)) action_in) w in
  let w2 := run (make_payment user (Some (loan_id l)) (Some amt)) w1 in
  In (set_status rejected l) (loans (store w1))
  /\ store w2 = store w1
  /\ exists m, out w2 = out w1 ++ [m] /\ error_of m = Some NotFoundError.
Proof.
  intros Hrel Hu Hl Hst Huser Huid Hact w1 w2.
  assert (Hpend : select_pending_loans (store w) <> [])
    by (apply (pending_loan_is_listed _ l u); assumption).
  assert (Hw1 : w1 = mkWorld (update_status rejected (loan_id l) (store w)) []
                             (out w ++ [LoanRejected]) (crashed w)).
  { subst w1. apply (review_reliable _ _ rejected); auto.
    right. split; [apply lower_is_r; assumption | reflexivity]. }
  assert (Hloans : loans (store w1)
                   = map (fun x => if loan_id x =? loan_id l
                                   then set_status rejected l else x)
                         (loans (store w))).
  { rewrite Hw1. apply update_status_unique; assumption. }
  assert (Hnone : forall x, ~ approved_loan_of user (loan_id l) (store w1) x).
  { intros x (Hx & Hid & _ & Hsx). rewrite Hloans in Hx.
    apply in_map_iff in Hx. destruct Hx as [y [Hy Hyin]].
    destruct (loan_id y =? loan_id l) eqn:E.
    - subst x. discriminate.
    - subst x. apply Z.eqb_neq in E. contradiction. }
  assert (Hrel1 : reliable w1) by (rewrite Hw1; reflexivity).
  split.
  - rewrite Hloans. apply (replaced_row_in _ _ l); auto.
  - subst w2.
    destruct (make_payment_not_offered user (loan_id l) amt w1 Hrel1 Hnone)
      as [Hs [m [Hout Hm]]].
    split; [assumption |]. exists m. split; [assumption |].
    destruct Hm as [-> | ->]; reflexivity.
Qed.

Lemma reject_then_pay_witness :
  store (run (make_payment (mkSession 2 "alice" false) (Some 2) (Some 1))
             (run (review_pending_loans (Some 2) "r")
                  (demo_main [] paid_loan_session)))
  = store (run (review_pending_loans (Some 2) "r")
               (demo_main [] paid_loan_session)).
Proof.
  apply (reject_then_pay (mkSession 2 "alice" false) "r" 1
                         (demo_main [] paid_loan_session)
                         (mkLoan 2 2 50000 6 550 pending 50000)
                         (mkUser 2 "alice" "salt1$secret" false)).
  - reflexivity.
  - repeat constructor; simpl; intuition discriminate.
  - simpl. tauto.
  - reflexivity.
  - simpl. tauto.
  - reflexivity.
  - left. reflexivity.
Defined.





(** ** What holds of every store the program reaches *)

(** Nothing is ever deleted or rewritten, whatever is typed and whatever
    the store does: from any world on, the accounts and the ledger only
    grow at the end (every stored account, password hash included, and
    every ledger entry stays as it is), and so does the list of loans, each
    loan keeping its id, owner, amount, term and rate. *)
Theorem nothing_is_deleted (hashpw : string -> string -> string)
        (checkpw : string -> string -> bool) (choices : list main_choice)
        (w : world) :
  let d := store w in
  let d' := store (run (main_loop hashpw checkpw choices) w) in
  (exists us, users d' = users d ++ us)
  /\ (exists ps, payments d' = payments d ++ ps)
  /\ (exists ls,
         map (fun l => (loan_id l, loan_user l, amount l, term l, loan_rate l)) (loans d')
         = map (fun l => (loan_id l, loan_user l, amount l, term l, loan_rate l)) (loans d)
           ++ ls).
Proof.
  intros d d'. subst d d'.
  set (key := fun l => (loan_id l, loan_user l, amount l, term l, loan_rate l)).
  set (P := fun x : db =>
              (exists us, users x = users (store w) ++ us)
              /\ (exists ps, payments x = payments (store w) ++ ps)
              /\ (exists ls, map key (loans x) = map key (loans (store w)) ++ ls)).
  assert (Hupd : forall f lid x, (forall l, key (f l) = key l) ->
                                 map key (loans (update_loans f lid x)) = map key (loans x)).
  { intros f lid x Hf. simpl. rewrite map_map. apply map_ext. intros l.
    destruct (loan_id l =? lid); [apply Hf | reflexivity]. }
  assert (HP : forall x x', statement x x' -> P x -> P x').
  { intros x x' Hs ([us Hus] & [ps Hps] & [ls Hls]).
    destruct Hs as [name hash | uid amt trm rate bal | b lid | lid amt | s lid];
      unfold P; simpl.
    - split; [| split]; [| eauto | eauto].
      exists (us ++ [mkUser (next_user_id x) name hash false]).
      rewrite Hus, app_assoc. reflexivity.
    - split; [| split]; [eauto | eauto |].
      eexists. rewrite map_app, Hls, <- app_assoc. reflexivity.
    - split; [| split]; [eauto | eauto |].
      exists ls. rewrite <- Hls. apply (Hupd (set_balance b) lid x). reflexivity.
    - split; [| split]; [eauto | | eauto].
      eexists. rewrite Hps, <- app_assoc. reflexivity.
    - split; [| split]; [eauto | eauto |].
      exists ls. rewrite <- Hls. apply (Hupd (set_status s) lid x). reflexivity. }
  apply (keeps_main_loop hashpw checkpw P HP choices w).
  unfold P. repeat split; exists []; rewrite app_nil_r; reflexivity.
Qed.

Lemma login_session_row (checkpw : string -> string -> bool) (name password : string)
      (w : world) (s : session) :
  fst (login checkpw name password w) = Some s ->
  exists u, In u (users (store w)) /\ username u = name
            /\ sid s = user_id u /\ sadmin s = is_admin u.
Proof.
  unfold login, bind, execute_fetch, print, ret.
  destruct (hd false (faults w)); simpl; [discriminate |].
  destruct (select_user name (store w)) as [| u us] eqn:E; simpl; [discriminate |].
  assert (Hu : In u (users (store w)) /\ username u = name).
  { apply select_user_in. rewrite E. left. reflexivity. }
  destruct (checkpw password (password_hash u)); simpl; [| discriminate].
  intros [= <-]. exists u. simpl. tauto.
Qed.

(** The only admin is the account made at start-up.  In every store the
    program reaches from an empty one, whatever the store does, an account
    with the admin flag is account 1, named "admin": registration never
    grants the flag.  So a login yields an admin session only under the
    name "admin". *)
Theorem only_bootstrap_admin (hashpw : string -> string -> string)
        (checkpw : string -> string -> bool) (salt : string)
        (schedule : list bool) (choices : list main_choice) :
  let w := main hashpw checkpw salt schedule choices in
  Forall (fun u => is_admin u = true -> user_id u = 1 /\ username u = "admin"%string)
         (users (store w))
  /\ (forall name password s,
         fst (login checkpw name password w) = Some s ->
         sadmin s = true -> name = "admin"%string /\ sid s = 1).
Proof.
  intros w.
  set (P := fun d : db =>
              Forall (fun u => is_admin u = true ->
                               user_id u = 1 /\ username u = "admin"%string)
                     (users d)).
  assert (HP : forall d d', statement d d' -> P d -> P d').
  { intros d d' Hs Hd. destruct Hs; unfold P in *; simpl; try assumption.
    apply Forall_app. split; [assumption |].
    constructor; [simpl; discriminate | constructor]. }
  assert (H : P (store w)).
  { apply (main_keeps_any hashpw checkpw P HP).
    unfold P. simpl. constructor; [simpl; auto | constructor]. }
  split; [exact H |].
  intros name password s Hlog Hadm.
  destruct (login_session_row checkpw name password w s Hlog)
    as [u (Hin & Hname & Hsid & Hflag)].
  unfold P in H. rewrite Forall_forall in H.
  destruct (H u Hin) as [Hid Hn]; [congruence |].
  split; congruence.
Qed.

Lemma NoDup_snoc_any {A : Type} (xs : list A) (x : A) :
  NoDup xs -> ~ In x xs -> NoDup (xs ++ [x]).
Proof.
  induction xs as [| y ys IH]; simpl; intros Hnd Hx.
  - constructor; [intros [] | constructor].
  - inversion Hnd as [| ? ? Hy Hys]; subst. constructor.
    + intros H. apply in_app_or in H. destruct H as [H | [H | []]]; auto.
    + apply IH; auto.
Qed.

(** User names and user ids are unique.  In every store the program
    reaches on a reliable store no two accounts share a name (compared as
    exact strings) or an id: the check in [register] is enough. *)
Theorem usernames_unique (hashpw : string -> string -> string)
        (checkpw : string -> string -> bool) (salt : string)
        (choices : list main_choice) :
  let d := store (main hashpw checkpw salt [] choices) in
  NoDup (map username (users d)) /\ NoDup (map user_id (users d))
  /\ Forall (fun u => 1 <= user_id u < next_user_id d) (users d).
Proof.
  intros d. subst d.
  set (P := fun d : db =>
              (NoDup (map username (users d)) /\ NoDup (map user_id (users d))
               /\ Forall (fun u => 1 <= user_id u < next_user_id d) (users d))
              /\ 1 <= next_user_id d).
  assert (HP : forall d d', transition d d' -> P d -> P d').
  { intros d d' Ht [(Hn & Hi & Hlt) Hone].
    destruct Ht as [name hash Hfree | | |]; unfold P, payment_statements;
      try destruct (_ =? 0); simpl;
      [| repeat split; assumption ..].
    rewrite Forall_forall in Hlt. rewrite !map_app. simpl.
    split; [| lia]. repeat split.
    - apply NoDup_snoc_any; [assumption |]. apply select_user_nil. assumption.
    - apply NoDup_snoc_any; [assumption |]. intros H.
      apply in_map_iff in H. destruct H as [u [Hu Hin]].
      specialize (Hlt u Hin). lia.
    - rewrite Forall_forall. intros u Hin. apply in_app_or in Hin.
      destruct Hin as [Hin | [<- | []]]; [specialize (Hlt u Hin) |]; simpl; lia. }
  apply (main_keeps hashpw checkpw P HP). unfold P. simpl.
  split; [| lia]. repeat constructor; simpl; auto; lia.
Qed.



(** The ledger is sound.  In every store the program reaches on a reliable
    store each ledger entry has a positive amount and points to a loan that
    exists, and no two entries share an id. *)
Theorem ledger_sound (hashpw : string -> string -> string)
        (checkpw : string -> string -> bool) (salt : string)
        (choices : list main_choice) :
  let d := store (main hashpw checkpw salt [] choices) in
  Forall (fun p => 0 < payment_amount p
                   /\ In (payment_loan p) (map loan_id (loans d)))
         (payments d)
  /\ NoDup (map payment_id (payments d)).
Proof.
  intros d. subst d.
  set (P := fun d : db =>
              store_invariant d
              /\ Forall (fun p => 0 < payment_amount p
                                  /\ In (payment_loan p) (map loan_id (loans d))
                                  /\ payment_id p < next_payment_id d)
                        (payments d)
              /\ NoDup (map payment_id (payments d))).
  assert (HP : forall d d', transition d d' -> P d -> P d').
  { intros d d' Ht (Hinv & Hp & Hids).
    split; [apply (transition_invariant d); assumption |].
    destruct Hinv as [(Hnd & _ & _) _]. rewrite Forall_forall in Hp.
    destruct Ht as [name hash Hfree | uid amt trm Hamt Htrm
                    | uid lid a b amt Hin Hamt | s lid Hs Hpend].
    - split; [rewrite Forall_forall |]; assumption.
    - simpl. split; [| assumption]. rewrite Forall_forall. intros p Hin.
      destruct (Hp p Hin) as (H1 & H2 & H3). repeat split; try assumption.
      rewrite map_app. apply in_or_app. left. assumption.
    - apply in_select_approved in Hin.
      destruct Hin as [l (Hl & Hid & Ha & Hb & _ & _)]. subst a b.
      rewrite (payment_statements_unique d lid amt l Hnd Hl Hid). simpl.
      rewrite replaced_ids by (simpl; assumption).
      split.
      + rewrite Forall_forall. intros p Hin. apply in_app_or in Hin.
        destruct Hin as [Hin | [<- | []]].
        * destruct (Hp p Hin) as (H1 & H2 & H3). repeat split; try assumption. lia.
        * simpl. repeat split; [lia | | lia].
          rewrite <- Hid. apply in_map. assumption.
      + rewrite map_app. simpl. apply NoDup_snoc_any; [assumption |].
        intros H. apply in_map_iff in H. destruct H as [p [Hpid Hin]].
        destruct (Hp p Hin) as (_ & _ & H3). lia.
    - split; [| assumption]. unfold update_status.
      rewrite update_loans_ids by reflexivity. simpl.
      rewrite Forall_forall. assumption. }
  assert (H : P (store (main hashpw checkpw salt [] choices))).
  { apply (main_keeps hashpw checkpw P HP salt choices).
    split; [apply store_invariant_boot | simpl; split; constructor]. }
  destruct H as (_ & Hp & Hids). split; [| assumption].
  rewrite Forall_forall in *. intros p Hin. destruct (Hp p Hin) as (H1 & H2 & _). auto.
Qed.

(** ** The menu of a user who is not an admin *)

Lemma keeps_execute_when (P : db -> Prop) (stmt : db -> db) :
  (forall d, P d -> P (stmt d)) -> keeps P (execute stmt).
Proof.
  intros Hs w H. unfold execute. destruct (hd false (faults w)); simpl; auto.
Qed.

Lemma own_write_statement (uid : Z) (d d' : db) :
  own_write uid d d' -> statement d d'.
Proof. intros H. destruct H; constructor. Qed.

Lemma owns_update (uid lid lid' : Z) (f : loan_row -> loan_row) (d : db) :
  (forall l, loan_id (f l) = loan_id l /\ loan_user (f l) = loan_user l) ->
  owns uid lid d -> owns uid lid (update_loans f lid' d).
Proof.
  intros Hf [l (Hin & Hid & Hu)].
  exists (if loan_id l =? lid' then f l else l). split.
  - simpl. apply in_map_iff. exists l. auto.
  - destruct (loan_id l =? lid'); [| auto].
    destruct (Hf l) as [H1 H2]. split; congruence.
Qed.

Section UserSession.

Variable uid : Z.
Variable P : db -> Prop.
Hypothesis P_own : forall d d', own_write uid d d' -> P d -> P d'.

Lemma keeps_own_apply (user : session) (a t : option Z) :
  sid user = uid -> keeps P (apply_for_loan user a t).
Proof.
  intros Hsid. unfold apply_for_loan. destruct a as [amt |]; [| apply keeps_print].
  destruct t as [trm |]; [| apply keeps_print].
  destruct ((amt <=? 0) || (trm <=? 0)); [apply keeps_print |].
  cbv zeta. apply keeps_bind; [apply keeps_print | intros _].
  apply keeps_bind; [| intros _; apply keeps_print].
  apply keeps_execute_when. intros d Hd. rewrite Hsid.
  apply (P_own d); [constructor | assumption].
Qed.

Lemma keeps_own_payment (user : session) (l a : option Z) :
  sid user = uid -> keeps P (make_payment user l a).
Proof.
  intros Hsid w HP.
  remember (make_payment user l a w) as r eqn:Hr.
  unfold make_payment in Hr. unfold bind at 1 in Hr. unfold execute_fetch in Hr.
  destruct (hd false (faults w)); [subst r; exact HP |].
  destruct (select_approved_loans (sid user) (store w)) as [| r0 rs] eqn:Hrows;
    [subst r; exact HP |].
  destruct l as [lid |]; [| subst r; exact HP].
  destruct a as [amt |]; [| subst r; exact HP].
  destruct (find _ (r0 :: rs)) as [sel |] eqn:Hfind; [| subst r; exact HP].
  destruct (amt <=? 0); [subst r; exact HP |].
  destruct (amt >? snd sel); [subst r; exact HP |].
  rewrite <- Hrows, select_approved_loans_eq in Hfind.
  apply find_row_some in Hfind. destruct Hfind as [l0 (Hin & Hid & Ho & _)].
  apply offered_iff in Ho. destruct Ho as [Hown _].
  set (P' := fun d => P d /\ owns uid lid d).
  assert (HP' : forall stmt, (forall d, owns uid lid d -> own_write uid d (stmt d)) ->
                             keeps P' (execute stmt)).
  { intros stmt Hstmt. apply keeps_execute_when. intros d [Hd Ho]. split.
    - apply (P_own d); [apply Hstmt |]; assumption.
    - pose proof (Hstmt d Ho) as Hw. clear Hstmt.
      inversion Hw; subst.
      + destruct Ho as [x (Hx & Hxid & Hxu)]. exists x. simpl.
        split; [apply in_or_app; left; assumption | auto].
      + apply owns_update; [intros; split; reflexivity | assumption].
      + destruct Ho as [x Hx]. exists x. exact Hx.
      + apply owns_update; [intros; split; reflexivity | assumption]. }
  assert (Hk : keeps P'
                 (execute (update_balance (snd sel - amt) lid) ;;
                  execute (insert_payment lid amt) ;;
                  (if snd sel - amt =? 0
                   then execute (update_status paid lid) else ret tt) ;;
                  print PaymentSuccessful)).
  { apply keeps_bind; [apply HP'; intros; constructor; assumption | intros _].
    apply keeps_bind; [apply HP'; intros; constructor; assumption | intros _].
    apply keeps_bind; [| intros _; apply keeps_print].
    destruct (snd sel - amt =? 0); [| apply keeps_ret].
    apply HP'; intros; constructor; assumption. }
  subst r. cbv zeta. apply Hk. simpl. split; [exact HP |].
  exists l0. rewrite <- Hsid. auto.
Qed.

Lemma keeps_own_step (user : session) (c : user_choice) :
  sid user = uid -> sadmin user = false -> keeps P (user_step user c).
Proof.
  intros Hsid Hadm. destruct c; simpl; try rewrite Hadm.
  - apply keeps_own_apply; assumption.
  - unfold view_loans. apply keeps_bind; [apply keeps_execute_fetch | intros r].
    destruct (no_rows r); [apply keeps_print | apply keeps_ret].
  - apply keeps_own_payment; assumption.
  - apply keeps_print.
  - apply keeps_print.
  - apply keeps_print.
Qed.

Lemma keeps_own_menu (user : session) (choices : list user_choice) :
  sid user = uid -> sadmin user = false -> keeps P (show_user_menu user choices).
Proof.
  intros Hsid Hadm.
  induction choices as [| c rest IH]; intros w H; [assumption |].
  simpl. pose proof (keeps_own_step user c Hsid Hadm w H) as H1.
  fold (run (user_step user c) w) in H1.
  destruct (crashed (run (user_step user c) w)); [assumption |].
  apply IH. assumption.
Qed.

End UserSession.

(** Only an admin decides.  Whatever a user who is not an admin types in
    the menu, and whatever the store does: the accounts are untouched, and
    a loan that is approved or rejected afterwards was already so before.
    (Choices "5" and "6" answer "Invalid choice!".) *)
Theorem non_admin_never_decides (user : session) (choices : list user_choice)
        (w : world) :
  sadmin user = false ->
  let d := store w in
  let d' := store (run (show_user_menu user choices) w) in
  users d' = users d
  /\ forall l', In l' (loans d') ->
                loan_status l' = approved \/ loan_status l' = rejected ->
                exists l, In l (loans d) /\ loan_id l = loan_id l'
                          /\ loan_status l = loan_status l'.
Proof.
  intros Hadm d d'. subst d d'.
  set (P := fun x : db =>
              users x = users (store w)
              /\ forall l', In l' (loans x) ->
                            loan_status l' = approved \/ loan_status l' = rejected ->
                            exists l, In l (loans (store w)) /\ loan_id l = loan_id l'
                                      /\ loan_status l = loan_status l').
  assert (Hmap : forall f lid x,
             (forall l, loan_id (f l) = loan_id l) ->
             (forall l, loan_status (f l) = loan_status l \/ loan_status (f l) = paid) ->
             P x -> P (update_loans f lid x)).
  { intros f lid x Hid Hst [Hu Hl]. split; [exact Hu |].
    intros l' Hin Hs. simpl in Hin. apply in_map_iff in Hin.
    destruct Hin as [y [Hy Hyin]].
    destruct (loan_id y =? lid); subst l'; [| apply Hl; assumption].
    rewrite Hid. destruct (Hst y) as [E | E]; rewrite E in *.
    - apply Hl; assumption.
    - destruct Hs; discriminate. }
  assert (HP : forall x x', own_write (sid user) x x' -> P x -> P x').
  { intros x x' Hw HPx. destruct Hw as [amt trm rate bal | lid b Ho | lid amt Ho | lid Ho].
    - destruct HPx as [Hu Hl]. split; [exact Hu |].
      intros l' Hin Hs. simpl in Hin. apply in_app_or in Hin.
      destruct Hin as [Hin | [<- | []]]; [apply Hl; assumption |].
      destruct Hs; discriminate.
    - apply Hmap; auto.
    - exact HPx.
    - apply Hmap; auto. }
  apply (keeps_own_menu (sid user) P HP user choices eq_refl Hadm w).
  split; [reflexivity |]. intros l' Hin _. exists l'. auto.
Qed.

Lemma non_admin_never_decides_witness :
  users (store (run (show_user_menu (mkSession 2 "alice" false)
                                    [ChooseReview (Some 2) "a"; ChooseManage;
                                     ChoosePay (Some 2) (Some 100)])
                    (demo_main [] paid_loan_session)))
  = users (store (demo_main [] paid_loan_session)).
Proof.
  apply (non_admin_never_decides (mkSession 2 "alice" false)
           [ChooseReview (Some 2) "a"; ChooseManage; ChoosePay (Some 2) (Some 100)]
           (demo_main [] paid_loan_session)).
  reflexivity.
Defined.

(** Users are kept apart.  Whatever a user who is not an admin types in the
    menu, and whatever the store does, every loan of another user is left
    exactly as it was: nobody pays on, or otherwise alters, a loan that is
    not theirs.  (Loan ids are unique and below the counter, as in every
    store the program reaches.) *)
Theorem other_users_loans_untouched (user : session) (choices : list user_choice)
        (w : world) :
  sadmin user = false ->
  loan_keys (store w) ->
  forall l, In l (loans (store w)) -> loan_user l <> sid user ->
            In l (loans (store (run (show_user_menu user choices) w))).
Proof.
  intros Hadm Hkeys.
  set (P := fun x : db =>
              loan_keys x
              /\ forall l, In l (loans (store w)) -> loan_user l <> sid user ->
                           In l (loans x)).
  assert (Hmap : forall f lid x,
             (forall l, loan_id (f l) = loan_id l) ->
             owns (sid user) lid x -> P x -> P (update_loans f lid x)).
  { intros f lid x Hf [lo (Hlo & Hloid & Hlou)] [Hk Hl]. split.
    - apply (loan_keys_ids x); [apply update_loans_ids; assumption | reflexivity
                                | assumption].
    - intros l Hin Hne. simpl. apply in_map_iff. exists l.
      split; [| apply Hl; assumption].
      destruct (loan_id l =? lid) eqn:E; [| reflexivity].
      exfalso. apply Z.eqb_eq in E. apply Hne.
      destruct Hk as [Hnd _].
      rewrite (same_id_same_row (loans x) lo l Hnd Hlo (Hl l Hin Hne)); congruence. }
  assert (HP : forall x x', own_write (sid user) x x' -> P x -> P x').
  { intros x x' Hw HPx.
    destruct Hw as [amt trm rate bal | lid b Ho | lid amt Ho | lid Ho].
    - destruct HPx as [Hk Hl]. split.
      + apply (statement_loan_keys x); [constructor | assumption].
      + intros l Hin Hne. simpl. apply in_or_app. left. apply Hl; assumption.
    - apply Hmap; auto.
    - destruct HPx as [Hk Hl]. split; [| exact Hl].
      apply (statement_loan_keys x); [constructor | assumption].
    - apply Hmap; auto. }
  intros l Hin Hne.
  apply (keeps_own_menu (sid user) P HP user choices eq_refl Hadm w); auto.
  split; auto.
Qed.

Lemma other_users_loans_untouched_witness :
  In (mkLoan 1 2 100000 12 600 approved 100000)
     (loans (store (run (show_user_menu (mkSession 3 "bob" false)
                                        [ChoosePay (Some 1) (Some 100);
                                         ChooseReview (Some 1) "r";
                                         ChooseApply (Some 5000) (Some 3)])
                        (demo_main [] (approved_loan_session
                                       ++ [MenuRegister "bob" "pw" "pw" "salt2"]))))).
Proof.
  apply (other_users_loans_untouched (mkSession 3 "bob" false)
           [ChoosePay (Some 1) (Some 100); ChooseReview (Some 1) "r";
            ChooseApply (Some 5000) (Some 3)]
           (demo_main [] (approved_loan_session
                          ++ [MenuRegister "bob" "pw" "pw" "salt2"]))).
  - reflexivity.
  - split; [repeat constructor; simpl; tauto |].
    repeat constructor.
  - simpl. tauto.
  - simpl. discriminate.
Defined.

(** ** Read-only operations and the one uncaught exception *)

(** "View my loans" only reads: the store is never changed, whatever it
    does.  On a reliable store it prints "You have no loans." exactly when
    no loan belongs to the user. *)
Theorem view_loans_read_only (user : session) (w : world) :
  store (run (view_loans user) w) = store w
  /\ (reliable w ->
      ((forall l, In l (loans (store w)) -> loan_user l <> sid user) ->
       out (run (view_loans user) w) = out w ++ [NoLoans])
      /\ ((exists l, In l (loans (store w)) /\ loan_user l = sid user) ->
          out (run (view_loans user) w) = out w)).
Proof.
  unfold view_loans, select_loans_of. run_op.
  destruct (hd false (faults w)) eqn:Hf; simpl.
  - split; [reflexivity |]. intros Hrel. rewrite Hrel in Hf. discriminate.
  - assert (Hfil : filter (fun l => loan_user l =? sid user) (loans (store w)) = []
                   <-> forall l, In l (loans (store w)) -> loan_user l <> sid user).
    { split.
      - intros H l Hin Hu.
        assert (Hl : In l (filter (fun l => loan_user l =? sid user) (loans (store w))))
          by (apply filter_In; split; [assumption | apply Z.eqb_eq; assumption]).
        rewrite H in Hl. destruct Hl.
      - intros H.
        destruct (filter _ (loans (store w))) as [| x xs] eqn:E; [reflexivity |].
        assert (Hx : In x (x :: xs)) by (left; reflexivity).
        rewrite <- E in Hx. apply filter_In in Hx. destruct Hx as [Hx Hu].
        apply Z.eqb_eq in Hu. exfalso. apply (H x Hx Hu). }
    destruct (rev (filter _ (loans (store w)))) as [| x xs] eqn:E; simpl.
    + split; [reflexivity |]. intros _. split; [reflexivity |].
      intros [l [Hin Hu]]. exfalso.
      assert (Hnil : filter (fun l => loan_user l =? sid user) (loans (store w)) = []).
      { rewrite <- (rev_involutive (filter _ _)), E. reflexivity. }
      apply (proj1 Hfil Hnil l Hin Hu).
    + split; [reflexivity |]. intros _. split; [| reflexivity].
      intros H. apply Hfil in H. rewrite H in E. discriminate.
Qed.

(** A store error while the admin lists the users ends the program.  The
    failed fetch returns [None], the loop over it raises, and nothing
    catches the exception: after "Database error" nothing more is done,
    neither the rest of the admin's menu nor any later choice at the main
    menu, and the store is as it was. *)
Theorem manage_users_fault_ends_program (hashpw : string -> string -> string)
        (checkpw : string -> string -> bool) (name password : string)
        (menu : list user_choice) (rest : list main_choice) (w : world)
        (u : user_row) (us : list user_row) :
  fault_at 0 w = false ->
  select_user name (store w) = u :: us ->
  checkpw password (password_hash u) = true ->
  is_admin u = true ->
  fault_at 1 w = true ->
  run (main_loop hashpw checkpw
                 (MenuLogin name password (ChooseManage :: menu) :: rest)) w
  = mkWorld (store w) (tl (tl (faults w))) (out w ++ [Welcome; DatabaseError]) true.
Proof.
  intros Hf0 Hsel Hc Hadm Hf1.
  rewrite fault_at_0 in Hf0. rewrite fault_at_S in Hf1.
  assert (Hf1' : hd false (tl (faults w)) = true).
  { destruct (tl (faults w)); [discriminate | exact Hf1]. }
  assert (Hstep : run (main_step hashpw checkpw
                                 (MenuLogin name password (ChooseManage :: menu))) w
                  = mkWorld (store w) (tl (tl (faults w)))
                            (out w ++ [Welcome; DatabaseError]) true).
  { unfold main_step, login, run, bind, execute_fetch, print, ret.
    rewrite Hf0, Hsel, Hc. simpl. rewrite Hadm.
    unfold manage_users, run, bind, execute_fetch, crash. simpl.
    rewrite Hf1'. simpl. rewrite <- app_assoc. reflexivity. }
  unfold run at 1. cbn [main_loop]. cbv zeta. rewrite Hstep. reflexivity.
Qed.

Lemma manage_users_fault_ends_program_witness :
  run (main_loop demo_hashpw demo_checkpw
                 [MenuLogin "admin" "admin123"
                            [ChooseManage; ChooseReview (Some 1) "a"];
                  MenuRegister "bob" "pw" "pw" "salt2"])
      (boot demo_hashpw "salt0" [false; true])
  = mkWorld (store (boot demo_hashpw "salt0" [false; true])) []
            [Welcome; DatabaseError] true.
Proof.
  apply (manage_users_fault_ends_program demo_hashpw demo_checkpw "admin" "admin123"
           [ChooseReview (Some 1) "a"] [MenuRegister "bob" "pw" "pw" "salt2"]
           (boot demo_hashpw "salt0" [false; true])
           (mkUser 1 "admin" "salt0$admin123" true) []);
    reflexivity.
Defined.

(** ** More on the rate *)



(** ** Store errors and the success messages *)



Lemma payment_needs_approved_witness :
  exists lid l,
    Some 1 = Some lid
    /\ approved_loan_of (mkSession 2 "alice" false) lid
                        (store (demo_main [] approved_loan_session)) l.
Proof.
  apply (payment_needs_approved (mkSession 2 "alice" false) (Some 1) (Some 40000)
                                (demo_main [] approved_loan_session)).
  vm_compute. discriminate.
Defined.

Lemma no_payment_on_zero_balance_witness :
  payments (store (run (make_payment (mkSession 2 "alice" false) (Some 1) (Some 1))
                       (demo_main [] redecided_session)))
  = payments (store (demo_main [] redecided_session)).
Proof.
  apply (no_payment_on_zero_balance (mkSession 2 "alice" false) 1 (Some 1)
                                    (demo_main [] redecided_session)
                                    (mkLoan 1 2 100000 12 600 approved 0)).
  - repeat constructor; simpl; intuition discriminate.
  - simpl. tauto.
  - reflexivity.
  - reflexivity.
Defined.
